(** * folseparators: logic model, direct evaluator, solver bridge, refinement loop

    A shallow embedding of [separators/logic.py], [separators/check.py],
    [separators/cvc4.py] and [separators/learn.py].

    Python dictionaries are finite maps ([gmap]), Python sets are finite sets
    ([gset]), Python lists are lists.  Element identifiers are positions in
    [Model.names], hence natural numbers.  A call that can raise returns a
    [Res]; a method that mutates its receiver returns a [Step] carrying the
    receiver after the call, also when the call raised half-way. *)

From stdpp Require Import gmap strings list fin_maps.
From Stdlib Require Import ZArith Ascii Sorted.

Local Open Scope string_scope.
Local Open Scope list_scope.

(** ** Python exceptions and results *)

Inductive PyExn : Type :=
| RuntimeError (msg : string)
| KeyError (key : string)             (* a dict indexed by a missing str *)
| KeyErrorTuple (key : list nat)      (* a dict indexed by a missing tuple *)
| IndexError
| AssertionError (msg : string)
| TimeoutException.

(** The outcome of a call without side effect on the modelled state. *)
Inductive Res (A : Type) : Type :=
| Ok (a : A)
| Raise (e : PyExn).
Arguments Ok {A} a.
Arguments Raise {A} e.

#[export] Instance Res_ret : MRet Res := fun A a => Ok a.
#[export] Instance Res_bind : MBind Res := fun A B f r =>
  match r with
  | Ok a => f a
  | Raise e => Raise e
  end.
#[export] Instance Res_fmap : FMap Res := fun A B f r =>
  match r with
  | Ok a => Ok (f a)
  | Raise e => Raise e
  end.

(** The outcome of a method on a mutable object: the object afterwards and
    either the returned value or the exception raised. *)
Inductive Step (S A : Type) : Type :=
| Returns (s : S) (a : A)
| Raises (s : S) (e : PyExn).
Arguments Returns {S A} s a.
Arguments Raises {S A} s e.

(** What a Python method hands back when the claim is about the kind of the
    value: [None] or a [bool]. *)
Inductive PyVal : Type :=
| PyNone
| PyBool (b : bool).

(** [[f(a) for a in l]], evaluated left to right, the first exception wins. *)
Definition list_comprehension {A B : Type} (f : A -> Res B) : list A -> Res (list B) :=
  fix go (l : list A) : Res (list B) :=
    match l with
    | [] => Ok []
    | a :: l' =>
        match f a with
        | Raise e => Raise e
        | Ok b =>
            match go l' with
            | Raise e => Raise e
            | Ok bs => Ok (b :: bs)
            end
        end
    end.

(** [for x in l: if not p(x): return False] followed by [return True]. *)
Definition loop_all {A : Type} (p : A -> Res bool) : list A -> Res bool :=
  fix go (l : list A) : Res bool :=
    match l with
    | [] => Ok true
    | x :: l' =>
        match p x with
        | Raise e => Raise e
        | Ok false => Ok false
        | Ok true => go l'
        end
    end.

(** [for x in l: if p(x): return True] followed by [return False]. *)
Definition loop_any {A : Type} (p : A -> Res bool) : list A -> Res bool :=
  fix go (l : list A) : Res bool :=
    match l with
    | [] => Ok false
    | x :: l' =>
        match p x with
        | Raise e => Raise e
        | Ok true => Ok true
        | Ok false => go l'
        end
    end.

(** [itertools.product] of the lists [ls]: the rightmost list varies fastest. *)
Fixpoint product {A : Type} (ls : list (list A)) : list (list A) :=
  match ls with
  | [] => [[]]
  | l :: ls' => x ← l; t ← product ls'; [x :: t]
  end.

(** [sorted] on strings: insertion into an ordered list by [String.leb]
    (code-point order on the bytes). *)
Fixpoint insert_sorted (x : string) (l : list string) : list string :=
  match l with
  | [] => [x]
  | y :: l' => if String.leb x y then x :: l else y :: insert_sorted x l'
  end.

Definition sorted (l : list string) : list string :=
  foldr insert_sorted [] l.

(** [sorted(d.items())] for a dict with str keys: keys are unique, so the
    order is the order of the keys. *)
Definition sorted_items {V : Type} (d : gmap string V) : list (string * V) :=
  omap (fun k => (fun v => (k, v)) <$> d !! k) (sorted (elements (dom d))).

(** ** logic.py *)

(** *** Signature *)

Module Signature.
Record t : Type := mk {
  sorts : gset string;
  sort_names : list string;
  sort_indices : gmap string nat;
  relations : gmap string (list string);
  constants : gmap string string;
  functions : gmap string (list string * string)
}.

(** [Signature()] *)
Definition init : t := mk ∅ [] ∅ ∅ ∅ ∅.

(** [finalize_sorts]: [sort_names] is [sorted(sorts)] and [sort_indices]
    maps each name to its position. *)
Definition finalize_sorts (sig : t) : t :=
  let names := sorted (elements (sorts sig)) in
  mk (sorts sig) names
     (list_to_map (zip names (seq 0 (length names))))
     (relations sig) (constants sig) (functions sig).
End Signature.

(** *** Environment *)

Module Environment.
Record t : Type := mk {
  sig : Signature.t;
  bound : gmap string string;
  stack : list string          (* the last element is the top *)
}.

(** [Environment(sig)] *)
Definition init (sig : Signature.t) : t := mk sig ∅ [].

(** [bind]: [self.bound[v] = sort; self.stack.append(v)] *)
Definition bind (v sort : string) (e : t) : t :=
  mk (sig e) (<[v := sort]> (bound e)) (stack e ++ [v]).

(** [pop]: [v = self.stack[-1]; self.stack.pop(); del self.bound[v]].
    [self.stack[-1]] raises on an empty stack, [del] raises on a name
    that is not bound, after the stack was already shortened. *)
Definition pop (e : t) : Step t unit :=
  match last (stack e) with
  | None => Raises e IndexError
  | Some v =>
      let stack' := removelast (stack e) in
      match bound e !! v with
      | None => Raises (mk (sig e) (bound e) stack') (KeyError v)
      | Some _ => Returns (mk (sig e) (delete v (bound e)) stack') tt
      end
  end.

(** [lookup_var] *)
Definition lookup_var (x : string) (e : t) : option string :=
  match bound e !! x with
  | Some s => Some s
  | None =>
      match Signature.constants (sig e) !! x with
      | Some s => Some s
      | None => None
      end
  end.
End Environment.

(** *** Terms and formulas *)

Unset Elimination Schemes.

Inductive Term : Type :=
| Var (var : string)
| Func (f : string) (args : list Term).

Inductive Formula : Type :=
| And (c : list Formula)
| Or (c : list Formula)
| Not (f : Formula)
| Exists (var sort : string) (f : Formula)
| Forall (var sort : string) (f : Formula)
| Equal (a b : Term)
| Relation (rel : string) (args : list Term).

Set Elimination Schemes.

(** [rename_free_vars_term]: [mapping.get(t.var, t.var)] on variables. *)
Fixpoint rename_free_vars_term (t : Term) (mapping : gmap string string) : Term :=
  match t with
  | Var v => Var (default v (mapping !! v))
  | Func f args => Func f (map (fun a => rename_free_vars_term a mapping) args)
  end.

(** [rename_free_vars]: under a binder whose variable is a key of the
    mapping, the mapping is rebuilt from the items whose key differs. *)
Fixpoint rename_free_vars (f : Formula) (mapping : gmap string string) : Formula :=
  match f with
  | And c => And (map (fun x => rename_free_vars x mapping) c)
  | Or c => Or (map (fun x => rename_free_vars x mapping) c)
  | Not g => Not (rename_free_vars g mapping)
  | Equal a b => Equal (rename_free_vars_term a mapping) (rename_free_vars_term b mapping)
  | Relation rel args => Relation rel (map (fun a => rename_free_vars_term a mapping) args)
  | Forall v s g =>
      let m := match mapping !! v with
               | None => mapping
               | Some _ => filter (fun ab : string * string => ab.1 ≠ v) mapping
               end in
      Forall v s (rename_free_vars g m)
  | Exists v s g =>
      let m := match mapping !! v with
               | None => mapping
               | Some _ => filter (fun ab : string * string => ab.1 ≠ v) mapping
               end in
      Exists v s (rename_free_vars g m)
  end.

(** [free_vars_term], [free_vars]: the generators, as the lists they yield. *)
Fixpoint free_vars_term (t : Term) : list string :=
  match t with
  | Var v => [v]
  | Func _ args => flat_map free_vars_term args
  end.

Fixpoint free_vars (f : Formula) : list string :=
  match f with
  | And c | Or c => flat_map free_vars c
  | Not g => free_vars g
  | Equal a b => free_vars_term a ++ free_vars_term b
  | Relation _ args => flat_map free_vars_term args
  | Forall v _ g | Exists v _ g =>
      List.filter (fun x => negb (String.eqb x v)) (free_vars g)
  end.

(** *** Model *)

Module Model.
Record t : Type := mk {
  label : string;
  names : list string;
  elems : gmap string nat;
  sorts : list string;
  elems_of_sort : gmap string (list nat);     (* a defaultdict(list) *)
  elems_of_sort_index : list (list nat);
  constants : gmap string nat;
  relations : gmap string (gset (list nat));
  functions : gmap string (gmap (list nat) nat);
  sig : Signature.t
}.

(** [Model(sig)] *)
Definition init (sig : Signature.t) : t :=
  mk EmptyString [] ∅ [] ∅
     (replicate (length (Signature.sort_names sig)) [])
     ∅
     ((fun _ => ∅) <$> Signature.relations sig)
     ((fun _ => ∅) <$> Signature.functions sig)
     sig.

(** [m.label = l] *)
Definition set_label (l : string) (m : t) : t :=
  mk l (names m) (elems m) (sorts m) (elems_of_sort m) (elems_of_sort_index m)
     (constants m) (relations m) (functions m) (sig m).

(** [self.elems_of_sort[sort]] read on the defaultdict: a missing key
    reads as the empty list.  (Python also stores that empty list under
    the key; no later read through this function can tell.) *)
Definition universe (m : t) (sort : string) : list nat :=
  default [] (elems_of_sort m !! sort).

(** [add_elem].  The two dict updates come before the indexing of
    [elems_of_sort_index], which can raise. *)
Definition add_elem (name sort : string) (m : t) : Step t PyVal :=
  match elems m !! name with
  | Some _ => Returns m (PyBool false)
  | None =>
      let elem_id := length (names m) in
      let elems' := <[name := elem_id]> (elems m) in
      let eos' := <[sort := universe m sort ++ [elem_id]]> (elems_of_sort m) in
      let m1 := mk (label m) (names m) elems' (sorts m) eos'
                   (elems_of_sort_index m) (constants m) (relations m)
                   (functions m) (sig m) in
      match Signature.sort_indices (sig m) !! sort with
      | None => Raises m1 (KeyError sort)
      | Some i =>
          match elems_of_sort_index m !! i with
          | None => Raises m1 IndexError
          | Some row =>
              Returns (mk (label m) (names m ++ [name]) elems' (sorts m ++ [sort]) eos'
                          (<[i := row ++ [elem_id]]> (elems_of_sort_index m))
                          (constants m) (relations m) (functions m) (sig m))
                      (PyBool true)
          end
      end
  end.

(** [sort_of] *)
Definition sort_of (name : string) (m : t) : Res (option string) :=
  match elems m !! name with
  | Some i =>
      match sorts m !! i with
      | Some s => Ok (Some s)
      | None => Raise IndexError
      end
  | None => Ok None
  end.

(** [add_constant] *)
Definition add_constant (name elem : string) (m : t) : Step t PyVal :=
  match constants m !! name with
  | Some _ => Returns m (PyBool false)
  | None =>
      match elems m !! elem with
      | None => Raises m (KeyError elem)
      | Some e =>
          Returns (mk (label m) (names m) (elems m) (sorts m) (elems_of_sort m)
                      (elems_of_sort_index m) (<[name := e]> (constants m))
                      (relations m) (functions m) (sig m))
                  (PyBool true)
      end
  end.

(** [tuple(self.elems[a] for a in args)] *)
Definition elems_tuple (m : t) (args : list string) : Res (list nat) :=
  list_comprehension
    (fun a => match elems m !! a with
              | Some e => Ok e
              | None => Raise (KeyError a)
              end) args.

(** [add_relation]: [self.relations[rel]] is read before the tuple is
    built; the method has no [return]. *)
Definition add_relation (rel : string) (args : list string) (m : t) : Step t PyVal :=
  match relations m !! rel with
  | None => Raises m (KeyError rel)
  | Some tuples =>
      match elems_tuple m args with
      | Raise e => Raises m e
      | Ok tup =>
          Returns (mk (label m) (names m) (elems m) (sorts m) (elems_of_sort m)
                      (elems_of_sort_index m) (constants m)
                      (<[rel := tuples ∪ {[tup]}]> (relations m))
                      (functions m) (sig m))
                  PyNone
      end
  end.

(** [add_function]: in an assignment Python evaluates the right-hand side
    first, then [self.functions[func]], then the key; no [return]. *)
Definition add_function (func : string) (args : list string) (result : string)
    (m : t) : Step t PyVal :=
  match elems m !! result with
  | None => Raises m (KeyError result)
  | Some r =>
      match functions m !! func with
      | None => Raises m (KeyError func)
      | Some repr =>
          match elems_tuple m args with
          | Raise e => Raises m e
          | Ok tup =>
              Returns (mk (label m) (names m) (elems m) (sorts m) (elems_of_sort m)
                          (elems_of_sort_index m) (constants m) (relations m)
                          (<[func := <[tup := r]> repr]> (functions m)) (sig m))
                      PyNone
          end
      end
  end.
End Model.

(** [model_is_complete_wrt_sig]: four loops, each returning [False] at its
    first failure; none of them can raise, so the order of iteration over
    the set and the dicts does not show in the result. *)
Definition model_is_complete_wrt_sig (model : Model.t) (sig : Signature.t) : bool :=
  if negb (forallb (fun sort => negb (Nat.eqb (length (Model.universe model sort)) 0))
                   (elements (Signature.sorts sig)))
  then false
  else if negb (forallb (fun c => bool_decide (is_Some (Model.constants model !! c)))
                        (elements (dom (Signature.constants sig))))
  then false
  else if negb (forallb (fun rel => bool_decide (is_Some (Model.relations model !! rel)))
                        (elements (dom (Signature.relations sig))))
  then false
  else if negb (forallb
                  (fun item : string * (list string * string) =>
                     let '(func, (sorts, ret_sort)) := item in
                     match Model.functions model !! func with
                     | None => false
                     | Some repr =>
                         forallb (fun t => bool_decide (is_Some (repr !! t)))
                                 (product (map (Model.universe model) sorts))
                     end)
                  (map_to_list (Signature.functions sig)))
  then false
  else true.

(** ** check.py *)

(** [resolve_term].  In [model.functions[term.f][tuple(...)]] the dict of
    the function is fetched first, then the arguments are resolved from left
    to right, then the tuple is looked up. *)
Fixpoint resolve_term (term : Term) (model : Model.t) (assumptions : gmap string nat)
    : Res nat :=
  match term with
  | Var v =>
      match assumptions !! v with
      | Some e => Ok e
      | None =>
          match Model.constants model !! v with
          | Some e => Ok e
          | None => Raise (RuntimeError ("variable " +:+ v +:+ " not defined"))
          end
      end
  | Func f args =>
      match Model.functions model !! f with
      | None => Raise (KeyError f)
      | Some repr =>
          match list_comprehension (fun a => resolve_term a model assumptions) args with
          | Raise e => Raise e
          | Ok tup =>
              match repr !! tup with
              | Some r => Ok r
              | None => Raise (KeyErrorTuple tup)
              end
          end
      end
  end.

(** [check].  [{**assumptions, formula.var: e}] is the assumption map with
    the bound name set to [e]. *)
Fixpoint check (formula : Formula) (model : Model.t) (assumptions : gmap string nat)
    : Res bool :=
  match formula with
  | And c => loop_all (fun f => check f model assumptions) c
  | Or c => loop_any (fun f => check f model assumptions) c
  | Not f => negb <$> check f model assumptions
  | Equal a b =>
      x ← resolve_term a model assumptions;
      y ← resolve_term b model assumptions;
      mret (bool_decide (x = y))
  | Relation rel args =>
      elems ← list_comprehension (fun t => resolve_term t model assumptions) args;
      match Model.relations model !! rel with
      | None => Raise (KeyError rel)
      | Some tuples => Ok (bool_decide (elems ∈ tuples))
      end
  | Forall v sort f =>
      loop_all (fun e => check f model (<[v := e]> assumptions))
               (Model.universe model sort)
  | Exists v sort f =>
      loop_any (fun e => check f model (<[v := e]> assumptions))
               (Model.universe model sort)
  end.

(** ** The solvers, as the bridge sees them *)

Inductive CheckSatResult : Type := sat | unsat | unknown.

#[export] Instance CheckSatResult_eq_dec : EqDecision CheckSatResult.
Proof. solve_decision. Defined.

(** A satisfying assignment of the embedded solver ([z3.ModelRef]), reduced
    to the four questions [extract_model] asks of it.  Elements are
    represented by their [str]. *)
Record ModelRef : Type := {
  get_universe : string -> list string;
  eval_const : string -> string;
  eval_rel : string -> list string -> bool;
  eval_func : string -> list string -> string
}.

(** The embedded solver inside one call of [fm]: [solver_check a b bound] is
    what [timer.solver_check] answers after [a] and the negation of [b] were
    translated and asserted on top of the axioms, with every sort bounded to
    [k] representatives when [bound] is [Some k]; it raises when the
    translation or the timer does.  [solver_model] is [solver.model()]. *)
Record Solver : Type := {
  solver_check : Formula -> Formula -> option nat -> Res CheckSatResult;
  solver_model : Formula -> Formula -> option nat -> ModelRef
}.

(** What [subprocess.run] did, line 154 of cvc4.py: it raised
    [TimeoutExpired], or it completed with a return code and an output, kept
    here as [res.stdout.splitlines()]. *)
Inductive SubprocessResult : Type :=
| TimeoutExpired
| CompletedProcess (returncode : Z) (stdout_lines : list string).

(** The external solver inside one call of [find_model_or_equivalence_cvc4]:
    [run a b] is the subprocess result for the query asserting [a] and the
    negation of [b]; it raises when the translation or the preprocessing
    does.  [_parse_model] reads the model text; its parser is the module
    [parse], which is outside these sources. *)
Record Cvc4 : Type := {
  run : Formula -> Formula -> Res SubprocessResult;
  _parse_model : Signature.t -> list string -> Res Model.t
}.

(** ** cvc4.py *)

(** [solve_with_cvc4], from the result of [subprocess.run] on. *)
Definition solve_with_cvc4 (parse_model : Signature.t -> list string -> Res Model.t)
    (res : SubprocessResult) (sig : Signature.t)
    : Res (CheckSatResult * option Model.t) :=
  match res with
  | TimeoutExpired => Ok (unknown, None)
  | CompletedProcess returncode lines =>
      if (returncode =? 0)%Z then
        match lines with
        | [] => Raise IndexError
        | line0 :: rest =>
            if String.eqb line0 "unsat" then Ok (unsat, None)
            else if String.eqb line0 "unknown" then Ok (unknown, None)
            else if String.eqb line0 "sat" then
              m ← parse_model sig rest; mret (sat, Some m)
            else Raise (AssertionError ("got weird: " +:+ line0))
        end
      else Ok (unknown, None)
  end.

(** ** learn.py *)

(** [for x in l: body(x)] on a mutable object. *)
Definition for_each {S A B : Type} (body : A -> S -> Step S B) : list A -> S -> Step S unit :=
  fix go (l : list A) (s : S) : Step S unit :=
    match l with
    | [] => Returns s tt
    | x :: l' =>
        match body x s with
        | Raises s' e => Raises s' e
        | Returns s' _ => go l' s'
        end
    end.

(** The object after the calls, for an object that is dropped when one of
    them raises. *)
Definition finished {S A : Type} (r : Step S A) : Res S :=
  match r with
  | Returns s _ => Ok s
  | Raises _ e => Raise e
  end.

(** The object after the call, whether it returned or raised. *)
Definition state_of {S A : Type} (r : Step S A) : S :=
  match r with
  | Returns s _ => s
  | Raises s _ => s
  end.

(** [extract_model] *)
Definition extract_model (m : ModelRef) (sig : Signature.t) (label : string) : Res Model.t :=
  let M0 := Model.set_label label (Model.init sig) in
  M1 ← finished (for_each
          (fun sort M =>
             let univ := get_universe m sort in
             if Nat.eqb (length univ) 0 then Raises M (AssertionError EmptyString)
             else for_each (fun e => Model.add_elem e sort) (sorted univ) M)
          (sorted (elements (Signature.sorts sig))) M0);
  M2 ← finished (for_each
          (fun cs : string * string => Model.add_constant cs.1 (eval_const m cs.1))
          (sorted_items (Signature.constants sig)) M1);
  M3 ← finished (for_each
          (fun rs : string * list string =>
             for_each
               (fun t M => if eval_rel m rs.1 t then Model.add_relation rs.1 t M
                           else Returns M PyNone)
               (product (map (get_universe m) rs.2)))
          (sorted_items (Signature.relations sig)) M2);
  finished (for_each
          (fun fs : string * (list string * string) =>
             for_each
               (fun t => Model.add_function fs.1 t (eval_func m fs.1 t))
               (product (map (get_universe m) fs.2.1)))
          (sorted_items (Signature.functions sig)) M3).

(** [fm] *)
Definition fm (solver : Solver) (a b : Formula) (bound : option nat)
    : Res (CheckSatResult * option ModelRef) :=
  r ← solver_check solver a b bound;
  mret (r, if decide (r = sat) then Some (solver_model solver a b bound) else None).

(** The minimisation loop of [find_model_or_equivalence],
    [for k in range(k, k + n)], with the [assert False] that follows it. *)
Fixpoint minimize (solver : Solver) (a b : Formula) (sig : Signature.t) (label : string)
    (n k : nat) : Res (option Model.t) :=
  match n with
  | 0 => Raise (AssertionError EmptyString)
  | S n' =>
      rm ← fm solver a b (Some k);
      match rm.2 with
      | Some m => Some <$> extract_model m sig label
      | None => minimize solver a b sig label n' (S k)
      end
  end.

(** [find_model_or_equivalence]; [range(1, 100000)] has 99999 elements. *)
Definition find_model_or_equivalence (solver : Solver) (current formula : Formula)
    (env : Environment.t) : Res (option Model.t) :=
  rm1 ← fm solver current formula None;
  match rm1.2 with
  | Some _ =>
      minimize solver current formula (Environment.sig env) "-" (Pos.to_nat 99999) 1
  | None =>
      rm2 ← fm solver formula current None;
      match rm2.2 with
      | Some _ =>
          minimize solver formula current (Environment.sig env) "+" (Pos.to_nat 99999) 1
      | None =>
          if decide (rm1.1 = unsat ∧ rm2.1 = unsat) then Ok None
          else Raise (RuntimeError "Z3 did not produce equivalence or model")
      end
  end.

(** [k] is the first bound in [range(1, 100000)] under which the query
    asserting [a] and the negation of [b] is satisfiable: the solver
    answered every smaller bound, and not with [sat]. *)
Definition first_bounded_model (solver : Solver) (a b : Formula) (k : nat) : Prop :=
  1 <= k <= Pos.to_nat 99999
  /\ (forall j, 1 <= j < k ->
                exists r, solver_check solver a b (Some j) = Ok r /\ r <> sat)
  /\ solver_check solver a b (Some k) = Ok sat.

(** [find_model_or_equivalence_cvc4] *)
Definition find_model_or_equivalence_cvc4 (cvc4 : Cvc4) (current formula : Formula)
    (env : Environment.t) : Res (option Model.t) :=
  res1 ← run cvc4 current formula;
  rm1 ← solve_with_cvc4 (_parse_model cvc4) res1 (Environment.sig env);
  match rm1.2 with
  | Some m => Ok (Some (Model.set_label "-" m))
  | None =>
      res2 ← run cvc4 formula current;
      rm2 ← solve_with_cvc4 (_parse_model cvc4) res2 (Environment.sig env);
      match rm2.2 with
      | Some m => Ok (Some (Model.set_label "+" m))
      | None =>
          if decide (rm1.1 = unsat ∧ rm2.1 = unsat) then Ok None
          else Raise (RuntimeError "CVC4 did not produce equivalence or model")
      end
  end.

(** The Separator collaborator, consumed through its constructor and the
    methods [add_model] and [separate]; [Sep] is the state of the object.
    Both methods may raise, [separate] in particular [TimeoutException]
    when its timer runs out. *)
Module Separator.
Class ops (Sep : Type) : Type := {
  new : string -> Signature.t -> list Formula -> Sep;
  add_model : Model.t -> Sep -> Step Sep nat;
  separate : list nat -> list nat -> list (nat * nat) -> nat -> nat ->
             Sep -> Step Sep (option Formula)
}.
End Separator.

(** The command-line arguments the two entry points read. *)
Record Args : Type := {
  separator : string;
  no_cvc4 : bool;
  max_clauses : nat;
  max_depth : nat
}.

(** [LearningResult]; the three timer objects are left to [World]. *)
Record LearningResult : Type := {
  success : bool;
  current : Formula;
  models : list Model.t;
  reason : string
}.

(** What the timers do at the three places where a loop iteration touches
    them: entering [with result.counterexample_timer], the call
    [check_time()], entering [with result.separation_timer].  Each either
    passes or raises [TimeoutException]. *)
Record Clock : Type := {
  enter_counterexample : Res unit;
  check_time : Res unit;
  enter_separation : Res unit
}.

(** Everything outside the loop that answers it, by iteration number. *)
Record World : Type := {
  setup : Res unit;              (* declarations and axioms handed to z3 *)
  clock : nat -> Clock;
  z3 : nat -> Solver;
  cvc4 : nat -> Cvc4
}.

(** The variables of [learn] that change from one iteration to the next. *)
Record LoopState (Sep : Type) : Type := {
  result : LearningResult;
  sep : Sep;
  p_constraints : list nat;
  n_constraints : list nat
}.
Arguments result {Sep} _.
Arguments sep {Sep} _.
Arguments p_constraints {Sep} _.
Arguments n_constraints {Sep} _.

(** How one pass through the body of [while True] ends. *)
Inductive Control (Sep : Type) : Type :=
| Continue (st : LoopState Sep)
| Break (st : LoopState Sep)
| Return (r : LearningResult)
| Raised (st : LoopState Sep) (e : PyExn).
Arguments Continue {Sep} st.
Arguments Break {Sep} st.
Arguments Return {Sep} r.
Arguments Raised {Sep} st e.

Definition couldnt_separate : string :=
  "couldn't separate models under given restrictions".

Section Learn.
Context {Sep : Type} `{!Separator.ops Sep}.
Variable world : World.
Variable sig : Signature.t.
Variable formula : Formula.
Variable args : Args.

(** The body of the [while True] loop of [learn], iteration [i]. *)
Definition iteration (i : nat) (st : LoopState Sep) : Control Sep :=
  let res := result st in
  match enter_counterexample (clock world i) with
  | Raise e => Raised st e
  | Ok _ =>
  match (if negb (no_cvc4 args)
         then find_model_or_equivalence_cvc4 (cvc4 world i) (current res) formula
                (Environment.init sig)
         else find_model_or_equivalence (z3 world i) (current res) formula
                (Environment.init sig)) with
  | Raise e => Raised st e
  | Ok r =>
  match check_time (clock world i) with
  | Raise e => Raised st e
  | Ok _ =>
  match r with
  | None =>
      Return {| success := true; current := current res;
                models := models res; reason := reason res |}
  | Some r =>
  match enter_separation (clock world i) with
  | Raise e => Raised st e
  | Ok _ =>
  match Separator.add_model r (sep st) with
  | Raises sep1 e =>
      Raised {| result := res; sep := sep1;
                p_constraints := p_constraints st;
                n_constraints := n_constraints st |} e
  | Returns sep1 ident =>
      let res1 := {| success := success res; current := current res;
                     models := models res ++ [r]; reason := reason res |} in
      let p := if String.prefix "+" (Model.label r)
               then p_constraints st ++ [ident] else p_constraints st in
      let n := if String.prefix "+" (Model.label r)
               then n_constraints st else n_constraints st ++ [ident] in
      match Separator.separate p n [] (max_clauses args) (max_depth args) sep1 with
      | Raises sep2 e =>
          Raised {| result := res1; sep := sep2;
                    p_constraints := p; n_constraints := n |} e
      | Returns sep2 None =>
          Break {| result := {| success := success res1; current := current res1;
                                models := models res1;
                                reason := couldnt_separate |};
                   sep := sep2; p_constraints := p; n_constraints := n |}
      | Returns sep2 (Some c) =>
          Continue {| result := {| success := success res1; current := c;
                                   models := models res1; reason := reason res1 |};
                      sep := sep2; p_constraints := p; n_constraints := n |}
      end
  end end end end end end.

(** The [try] around the loop: [TimeoutException] and [RuntimeError] end
    the run with a reason, any other exception leaves [learn].  [None]
    when [fuel] iterations were not enough. *)
Fixpoint learn_loop (fuel i : nat) (st : LoopState Sep) : option (Res LearningResult) :=
  match fuel with
  | 0 => None
  | S fuel' =>
      match iteration i st with
      | Continue st' => learn_loop fuel' (S i) st'
      | Break st' => Some (Ok (result st'))
      | Return r => Some (Ok r)
      | Raised st' TimeoutException =>
          Some (Ok {| success := success (result st'); current := current (result st');
                      models := models (result st'); reason := "timeout" |})
      | Raised st' (RuntimeError msg) =>
          Some (Ok {| success := success (result st'); current := current (result st');
                      models := models (result st'); reason := msg |})
      | Raised _ e => Some (Raise e)
      end
  end.

(** The state in which [learn] enters its loop. *)
Definition learn_start (axioms : list Formula) : LoopState Sep :=
  {| result := {| success := false; current := Or []; models := []; reason := EmptyString |};
     sep := Separator.new (separator args) sig (axioms ++ [formula; Not formula]);
     p_constraints := []; n_constraints := [] |}.

(** The states in which the loop of [learn] starts its iterations: the
    initial one, and each one a completed iteration continues with. *)
Inductive reaches (axioms : list Formula) : nat -> LoopState Sep -> Prop :=
| reaches_start : reaches axioms 0 (learn_start axioms)
| reaches_step i st st' :
    reaches axioms i st -> iteration i st = Continue st' -> reaches axioms (S i) st'.

(** [learn] *)
Definition learn (fuel : nat) (axioms : list Formula) : option (Res LearningResult) :=
  match setup world with
  | Raise e => Some (Raise e)
  | Ok _ => learn_loop fuel 0 (learn_start axioms)
  end.
End Learn.

(** The parsed input file of batch mode, with the fields [separate] reads. *)
Record FOLFile : Type := {
  file_sig : Signature.t;
  axioms : list Formula;
  file_models : list Model.t;
  constraint_pos : list string;
  constraint_neg : list string;
  constraint_imp : list (string * string)
}.

Section Batch.
Context {Sep : Type} `{!Separator.ops Sep}.
Variable world : World.
Variable args : Args.

(** [for m in f.models: mapping[m.label].append(separator.add_model(m))],
    [mapping] being a defaultdict of lists. *)
Definition register_models : list Model.t -> Sep * gmap string (list nat) ->
    Step (Sep * gmap string (list nat)) unit :=
  for_each (fun m (sm : Sep * gmap string (list nat)) =>
              match Separator.add_model m sm.1 with
              | Raises s e => Raises (s, sm.2) e
              | Returns s ident =>
                  Returns (s, <[Model.label m := default [] (sm.2 !! Model.label m) ++ [ident]]> sm.2) tt
              end).

(** [separate], the batch entry point of learn.py. *)
Definition separate (f : FOLFile) : Res LearningResult :=
  let result0 := {| success := false; current := Or [];
                    models := file_models f; reason := EmptyString |} in
  let sep0 := Separator.new (separator args) (file_sig f) (axioms f) in
  match register_models (file_models f) (sep0, ∅) with
  | Raises _ e => Raise e
  | Returns (sep1, mapping) _ =>
      let ids := fun a : string => default [] (mapping !! a) in
      match enter_separation (clock world 0) with
      | Raise TimeoutException =>
          Ok {| success := false; current := Or [];
                models := file_models f; reason := "timeout" |}
      | Raise e => Raise e
      | Ok _ =>
          let p := a ← constraint_pos f; ids a in
          let n := a ← constraint_neg f; ids a in
          let i := ab ← constraint_imp f; x ← ids ab.1; y ← ids ab.2; [(x, y)] in
          match Separator.separate p n i (max_clauses args) (max_depth args) sep1 with
          | Raises _ TimeoutException =>
              Ok {| success := false; current := Or [];
                    models := file_models f; reason := "timeout" |}
          | Raises _ e => Raise e
          | Returns _ None =>
              Ok {| success := false; current := Or [];
                    models := file_models f; reason := couldnt_separate |}
          | Returns _ (Some c) =>
              _ ← list_comprehension (fun m => check c m ∅) (file_models f);
              mret {| success := true; current := c;
                      models := file_models f; reason := EmptyString |}
          end
      end
  end.
End Batch.

(** ** Induction over terms and formulas *)

Section TermInd.
Variable P : Term -> Prop.
Hypothesis HVar : forall v, P (Var v).
Hypothesis HFunc : forall f args, List.Forall P args -> P (Func f args).

Fixpoint Term_ind (t : Term) : P t :=
  match t with
  | Var v => HVar v
  | Func f args =>
      HFunc f args
        ((fix go (l : list Term) : List.Forall P l :=
            match l with
            | [] => List.Forall_nil P
            | a :: l' => List.Forall_cons P a l' (Term_ind a) (go l')
            end) args)
  end.
End TermInd.

Section FormulaInd.
Variable P : Formula -> Prop.
Hypothesis HAnd : forall c, List.Forall P c -> P (And c).
Hypothesis HOr : forall c, List.Forall P c -> P (Or c).
Hypothesis HNot : forall f, P f -> P (Not f).
Hypothesis HExists : forall v s f, P f -> P (Exists v s f).
Hypothesis HForall : forall v s f, P f -> P (Forall v s f).
Hypothesis HEqual : forall a b, P (Equal a b).
Hypothesis HRelation : forall rel args, P (Relation rel args).

Fixpoint Formula_ind (f : Formula) : P f :=
  let all := fix go (l : list Formula) : List.Forall P l :=
               match l with
               | [] => List.Forall_nil P
               | a :: l' => List.Forall_cons P a l' (Formula_ind a) (go l')
               end in
  match f with
  | And c => HAnd c (all c)
  | Or c => HOr c (all c)
  | Not g => HNot g (Formula_ind g)
  | Exists v s g => HExists v s g (Formula_ind g)
  | Forall v s g => HForall v s g (Formula_ind g)
  | Equal a b => HEqual a b
  | Relation rel args => HRelation rel args
  end.
End FormulaInd.

(** ** Formulas over a signature, well-sorted models *)

(** The sort of a term over [sig], where [env] holds the sorts of the
    variables bound by the enclosing quantifiers; a name that is not bound
    is looked up among the constants, as [Environment.lookup_var] does.
    [None] for a free variable, an undeclared function or an argument list
    of the wrong sorts. *)
Fixpoint term_sort (sig : Signature.t) (env : gmap string string) (t : Term)
    : option string :=
  match t with
  | Var v =>
      match env !! v with
      | Some s => Some s
      | None => Signature.constants sig !! v
      end
  | Func f args =>
      match Signature.functions sig !! f with
      | None => None
      | Some (sorts, ret) =>
          if bool_decide (map (term_sort sig env) args = map Some sorts)
          then Some ret else None
      end
  end.

(** A formula over [sig] whose free variables are all in [env]: every term
    has a sort and every relation is declared and applied to arguments of
    its sorts. *)
Fixpoint formula_over (sig : Signature.t) (env : gmap string string) (f : Formula)
    : bool :=
  match f with
  | And c | Or c => forallb (formula_over sig env) c
  | Not g => formula_over sig env g
  | Equal a b =>
      bool_decide (is_Some (term_sort sig env a)) &&
      bool_decide (is_Some (term_sort sig env b))
  | Relation rel args =>
      match Signature.relations sig !! rel with
      | None => false
      | Some sorts => bool_decide (map (term_sort sig env) args = map Some sorts)
      end
  | Forall v s g | Exists v s g => formula_over sig (<[v := s]> env) g
  end.

(** A formula over [sig] with no free variables. *)
Definition closed_formula_over (sig : Signature.t) (f : Formula) : bool :=
  formula_over sig ∅ f.

(** A model is well-sorted when each constant denotes an element of its
    sort and each function, on the tuples of its argument sorts, gives an
    element of its result sort.  Neither [Model.add_constant] nor
    [Model.add_function] nor [model_is_complete_wrt_sig] looks at this. *)
Definition model_is_well_sorted (model : Model.t) (sig : Signature.t) : bool :=
  forallb (fun item : string * string =>
             match Model.constants model !! item.1 with
             | None => true
             | Some e => bool_decide (e ∈ Model.universe model item.2)
             end)
          (map_to_list (Signature.constants sig))
  &&
  forallb (fun item : string * (list string * string) =>
             match Model.functions model !! item.1 with
             | None => true
             | Some repr =>
                 forallb (fun t => match repr !! t with
                                   | None => true
                                   | Some r => bool_decide (r ∈ Model.universe model item.2.2)
                                   end)
                         (product (map (Model.universe model) item.2.1))
             end)
          (map_to_list (Signature.functions sig)).

(** The assumption map binds exactly the names the sort environment binds,
    each to an element of its sort in the model. *)
Definition agrees (m : Model.t) (env : gmap string string) (A : gmap string nat) : Prop :=
  forall x, match env !! x with
            | Some s => exists e, A !! x = Some e /\ e ∈ Model.universe m s
            | None => A !! x = None
            end.

(** ** Concrete inputs *)

Module Examples.
(** One sort, nothing else. *)
Definition sig_S : Signature.t :=
  Signature.finalize_sorts (Signature.mk {["S"]} [] ∅ ∅ ∅ ∅).

(** A z3 model with one element. *)
Definition one_element : ModelRef :=
  {| get_universe := fun _ => ["S!val!0"];
     eval_const := fun _ => "S!val!0";
     eval_rel := fun _ _ => false;
     eval_func := fun _ _ => "S!val!0" |}.

(** The model text parsed to the one-element model. *)
Definition one_element_model : Res Model.t :=
  finished (Model.add_elem "e" "S" (Model.init sig_S)).

Definition parse_one_element (sig : Signature.t) (lines : list string) : Res Model.t :=
  one_element_model.

Definition is_true (f : Formula) : bool :=
  match f with And [] => true | _ => false end.
Definition is_false (f : Formula) : bool :=
  match f with Or [] => true | _ => false end.

(** A solver for the hypothesis [true] against the target [false]: the
    hypothesis without the target is satisfiable, the converse is not. *)
Definition solver_weak : Solver :=
  {| solver_check := fun a b _ => Ok (if is_true a && is_false b then sat else unsat);
     solver_model := fun _ _ _ => one_element |}.

Definition cvc4_weak : Cvc4 :=
  {| run := fun a b => Ok (CompletedProcess 0
                             (if is_true a && is_false b then ["sat"] else ["unsat"]));
     _parse_model := parse_one_element |}.

(** Solvers that find every query unsatisfiable. *)
Definition solver_unsat : Solver :=
  {| solver_check := fun _ _ _ => Ok unsat;
     solver_model := fun _ _ _ => one_element |}.

Definition cvc4_unsat : Cvc4 :=
  {| run := fun _ _ => Ok (CompletedProcess 0 ["unsat"]);
     _parse_model := parse_one_element |}.

(** Two sorts, a constant [c] of sort [A] and a function [f] from [A] to [A]. *)
Definition sig_AB : Signature.t :=
  Signature.finalize_sorts
    (Signature.mk {["A"; "B"]} [] ∅ ∅ {["c" := "A"]} {["f" := (["A"], "A")]}).

(** A model of [sig_AB] built with the four add operations, in which the
    constant [c] denotes the element of sort [B]. *)
Definition ill_sorted_model : Res Model.t :=
  m ← finished (Model.add_elem "a0" "A" (Model.init sig_AB));
  m ← finished (Model.add_elem "b0" "B" m);
  m ← finished (Model.add_constant "c" "b0" m);
  finished (Model.add_function "f" ["a0"] "a0" m).

(** The same with [c] denoting the element of sort [A]. *)
Definition well_sorted_model : Res Model.t :=
  m ← finished (Model.add_elem "a0" "A" (Model.init sig_AB));
  m ← finished (Model.add_elem "b0" "B" m);
  m ← finished (Model.add_constant "c" "a0" m);
  finished (Model.add_function "f" ["a0"] "a0" m).

(** [f(c) = c] *)
Definition f_c_is_c : Formula := Equal (Func "f" [Var "c"]) (Var "c").

(** One sort and a unary relation [P]. *)
Definition sig_P : Signature.t :=
  Signature.finalize_sorts (Signature.mk {["S"]} [] ∅ {["P" := ["S"]]} ∅ ∅).

(** A model of [sig_P] with one element and no fact. *)
Definition model_P : Res Model.t :=
  finished (Model.add_elem "e" "S" (Model.init sig_P)).

(** A separator that never finds a candidate. *)
#[global] Instance no_candidate : Separator.ops nat :=
  {| Separator.new := fun _ _ _ => 0;
     Separator.add_model := fun _ n => Returns (S n) n;
     Separator.separate := fun _ _ _ _ _ n => Returns n None |}.

Definition on_time : Clock :=
  {| enter_counterexample := Ok tt; check_time := Ok tt; enter_separation := Ok tt |}.

Definition world_weak : World :=
  {| setup := Ok tt; clock := fun _ => on_time;
     z3 := fun _ => solver_weak; cvc4 := fun _ => cvc4_weak |}.

Definition args_cvc4 : Args :=
  {| separator := "naive"; no_cvc4 := false; max_clauses := 1; max_depth := 0 |}.

Definition file_one_model (m : Model.t) : FOLFile :=
  {| file_sig := sig_S; axioms := []; file_models := [m];
     constraint_pos := [EmptyString]; constraint_neg := []; constraint_imp := [] |}.
End Examples.

(** ** More of logic.py *)

(** [reserved_names] *)
Definition reserved_names : list string :=
  [EmptyString; "sort"; "relation"; "constant"; "function"; "axiom"; "model";
   "forall"; "exists"; "and"; "or"; "not"; "implies"; "="].

(** [Signature.is_free_name] *)
Definition is_free_name (n : string) (sig : Signature.t) : bool :=
  if bool_decide (n ∈ reserved_names)
     || bool_decide (n ∈ Signature.sorts sig)
     || bool_decide (is_Some (Signature.relations sig !! n))
     || bool_decide (is_Some (Signature.constants sig !! n))
     || bool_decide (is_Some (Signature.functions sig !! n))
  then false else true.

(** [Signature.all_names]: the sort names, then the keys of the three
    dicts, each dict in some order of its keys. *)
Definition all_names (sig : Signature.t) : list string :=
  Signature.sort_names sig
  ++ elements (dom (Signature.constants sig))
  ++ elements (dom (Signature.relations sig))
  ++ elements (dom (Signature.functions sig)).

(** [notReplace]: the characters [=] and [#] change places.  Both are
    ASCII, so going through the bytes of the string is going through its
    characters. *)
Fixpoint notReplace (s : string) : string :=
  match s with
  | EmptyString => EmptyString
  | String c s' =>
      String (if Ascii.eqb c "="%char then "#"%char
              else if Ascii.eqb c "#"%char then "="%char
              else c)
             (notReplace s')
  end.

(** The names bound by the quantifiers of a formula, outermost first. *)
Fixpoint quantified_vars (f : Formula) : list string :=
  match f with
  | And c | Or c => flat_map quantified_vars c
  | Not g => quantified_vars g
  | Equal _ _ | Relation _ _ => []
  | Forall v _ g | Exists v _ g => v :: quantified_vars g
  end.

(** What the fields of a Model that [add_elem] maintains look like when
    every call so far has returned: identifiers are positions in [names],
    names are unique, [sorts] runs parallel to [names], the defaultdict lists
    each identifier under its sort, and there is one index row per sort
    name of the signature. *)
Definition model_wf (m : Model.t) : Prop :=
  length (Model.names m) = length (Model.sorts m)
  /\ (forall name i, Model.elems m !! name = Some i <-> Model.names m !! i = Some name)
  /\ (forall s i, i ∈ Model.universe m s <-> Model.sorts m !! i = Some s)
  /\ length (Model.elems_of_sort_index m)
     = length (Signature.sort_names (Model.sig m)).

(** ** More of cvc4.py *)

(** Modelled from the spec: the nodes of the nested-parenthesis expression
    tree that the module [parse] builds, an atom with its name or a
    parenthesised sequence of nodes, indexed and measured through its
    children. *)
Unset Elimination Schemes.
Inductive AstNode : Type :=
| Atom (name : string)
| Parens (children : list AstNode).
Set Elimination Schemes.

(** [_eval].  [value[0]] raises on an empty sequence; the assertions on the
    head and on the number of children raise [AssertionError] (the message
    of the last one, the node itself, is not kept). *)
Fixpoint _eval (env : gmap string string) (value : AstNode) : Res string :=
  match value with
  | Atom v => Ok (default v (env !! v))
  | Parens [] => Raise IndexError
  | Parens (Parens _ :: _) => Raise (AssertionError EmptyString)
  | Parens (Atom head :: rest) =>
      if String.eqb head "ite" then
        match rest with
        | [c; t; e] =>
            match _eval env c with
            | Raise x => Raise x
            | Ok b => if String.eqb b "true" then _eval env t else _eval env e
            end
        | _ => Raise (AssertionError EmptyString)
        end
      else if String.eqb head "=" then
        match rest with
        | [a; b] =>
            match _eval env a with
            | Raise x => Raise x
            | Ok x =>
                match _eval env b with
                | Raise y => Raise y
                | Ok y => Ok (if String.eqb x y then "true" else "false")
                end
            end
        | _ => Raise (AssertionError EmptyString)
        end
      else if String.eqb head "and" then
        match rest with
        | [] => Raise (AssertionError EmptyString)
        | _ =>
            (fix go (l : list AstNode) : Res string :=
               match l with
               | [] => Ok "true"
               | i :: l' =>
                   match _eval env i with
                   | Raise x => Raise x
                   | Ok s => if String.eqb s "true" then go l' else Ok "false"
                   end
               end) rest
        end
      else if String.eqb head "not" then
        match rest with
        | [a] =>
            match _eval env a with
            | Raise x => Raise x
            | Ok s => Ok (if String.eqb s "true" then "false" else "true")
            end
        | _ => Raise (AssertionError EmptyString)
        end
      else Raise (AssertionError EmptyString)
  end.

(** ** More of learn.py: the translation to z3 *)

(** The z3 calls [toZ3] makes, over z3's own expressions, sorts and function
    declarations.  Each call may raise, as z3 does on ill-sorted
    arguments. *)
Record Z3Api : Type := {
  ExprRef : Type;
  SortRef : Type;
  FuncDeclRef : Type;
  BoolVal : bool -> ExprRef;
  z3And : list ExprRef -> Res ExprRef;
  z3Or : list ExprRef -> Res ExprRef;
  z3Not : ExprRef -> Res ExprRef;
  z3Eq : ExprRef -> ExprRef -> Res ExprRef;
  Const : string -> SortRef -> Res ExprRef;
  apply_decl : FuncDeclRef -> list ExprRef -> Res ExprRef;
  ForAll : ExprRef -> ExprRef -> Res ExprRef;
  z3Exists : ExprRef -> ExprRef -> Res ExprRef
}.

(** [[body(x) for x in l]] on a mutable object. *)
Definition step_map {S A B : Type} (body : A -> S -> Step S B)
    : list A -> S -> Step S (list B) :=
  fix go (l : list A) (s : S) : Step S (list B) :=
    match l with
    | [] => Returns s []
    | x :: l' =>
        match body x s with
        | Raises s' e => Raises s' e
        | Returns s' b =>
            match go l' s' with
            | Raises s'' e => Raises s'' e
            | Returns s'' bs => Returns s'' (b :: bs)
            end
        end
    end.

(** A call that does not touch the object. *)
Definition pure_step {S A : Type} (s : S) (r : Res A) : Step S A :=
  match r with
  | Ok a => Returns s a
  | Raise e => Raises s e
  end.

Section ToZ3.
Variable api : Z3Api.
Variable sorts_to_z3 : gmap string (SortRef api).
Variable z3_rel_func : gmap string (FuncDeclRef api).

(** [toZ3] on a term; the environment is only read. *)
Fixpoint toZ3_term (t : Term) (env : Environment.t) : Res (ExprRef api) :=
  match t with
  | Var v =>
      match Environment.lookup_var v env with
      | None => Raise (RuntimeError "Cannot convert invalid formula to z3")
      | Some s =>
          match sorts_to_z3 !! s with
          | None => Raise (KeyError s)
          | Some srt => Const api v srt
          end
      end
  | Func f args =>
      match z3_rel_func !! f with
      | None => Raise (KeyError f)
      | Some d =>
          match list_comprehension (fun x => toZ3_term x env) args with
          | Raise e => Raise e
          | Ok xs => apply_decl api d xs
          end
      end
  end.

(** [toZ3] on a formula; a quantifier binds its variable around the
    translation of its body and pops it afterwards, and an exception leaves
    the environment as it was when raised. *)
Fixpoint toZ3 (f : Formula) (env : Environment.t) : Step Environment.t (ExprRef api) :=
  match f with
  | And c =>
      match c with
      | [] => Returns env (BoolVal api true)
      | _ =>
          match step_map toZ3 c env with
          | Raises env' e => Raises env' e
          | Returns env' xs => pure_step env' (z3And api xs)
          end
      end
  | Or c =>
      match c with
      | [] => Returns env (BoolVal api false)
      | _ =>
          match step_map toZ3 c env with
          | Raises env' e => Raises env' e
          | Returns env' xs => pure_step env' (z3Or api xs)
          end
      end
  | Not g =>
      match toZ3 g env with
      | Raises env' e => Raises env' e
      | Returns env' x => pure_step env' (z3Not api x)
      end
  | Relation rel args =>
      match z3_rel_func !! rel with
      | None => Raises env (KeyError rel)
      | Some d =>
          pure_step env
            (xs ← list_comprehension (fun x => toZ3_term x env) args; apply_decl api d xs)
      end
  | Equal a b =>
      pure_step env (x ← toZ3_term a env; y ← toZ3_term b env; z3Eq api x y)
  | Forall v s g =>
      match toZ3 g (Environment.bind v s env) with
      | Raises env' e => Raises env' e
      | Returns env' sub_f =>
          match Environment.pop env' with
          | Raises env'' e => Raises env'' e
          | Returns env'' _ =>
              match sorts_to_z3 !! s with
              | None => Raises env'' (KeyError s)
              | Some srt =>
                  pure_step env'' (bv ← Const api v srt; ForAll api bv sub_f)
              end
          end
      end
  | Exists v s g =>
      match toZ3 g (Environment.bind v s env) with
      | Raises env' e => Raises env' e
      | Returns env' sub_f =>
          match Environment.pop env' with
          | Raises env'' e => Raises env'' e
          | Returns env'' _ =>
              match sorts_to_z3 !! s with
              | None => Raises env'' (KeyError s)
              | Some srt =>
                  pure_step env'' (bv ← Const api v srt; z3Exists api bv sub_f)
              end
          end
      end
  end.
End ToZ3.

(** What a returning translation of a formula with the quantified names
    [qv] has done to the environment: the stack is as before and the names
    in [qv] are unbound. *)
Definition unbinds (qv : list string) (env env' : Environment.t) : Prop :=
  Environment.sig env' = Environment.sig env
  /\ Environment.stack env' = Environment.stack env
  /\ forall x, Environment.bound env' !! x
               = if bool_decide (x ∈ qv) then None else Environment.bound env !! x.

(** The call of the oracle in iteration [i] of [learn] on the hypothesis of
    [st], as [iteration] makes it. *)
Definition oracle_answer {Sep : Type} (world : World) (sig : Signature.t)
    (formula : Formula) (args : Args) (i : nat) (st : LoopState Sep)
    : Res (option Model.t) :=
  if negb (no_cvc4 args)
  then find_model_or_equivalence_cvc4 (cvc4 world i) (current (result st)) formula
         (Environment.init sig)
  else find_model_or_equivalence (z3 world i) (current (result st)) formula
         (Environment.init sig).

(** The part of a Model that [extract_model] builds up first and that its
    later loops keep. *)
Definition extraction_invariant (sig : Signature.t) (M : Model.t) : Prop :=
  model_wf M /\ Model.sig M = sig.

(** ** More concrete inputs *)

Module MoreExamples.
(** A z3 that builds nothing and never objects. *)
Definition silent_z3 : Z3Api :=
  {| ExprRef := unit; SortRef := unit; FuncDeclRef := unit;
     BoolVal := fun _ => tt;
     z3And := fun _ => Ok tt; z3Or := fun _ => Ok tt; z3Not := fun _ => Ok tt;
     z3Eq := fun _ _ => Ok tt; Const := fun _ _ => Ok tt;
     apply_decl := fun _ _ => Ok tt;
     ForAll := fun _ _ => Ok tt; z3Exists := fun _ _ => Ok tt |}.

Definition declared_sorts : gmap string unit := {["S" := tt]}.
Definition declared_symbols : gmap string unit := {["P" := tt]}.

(** [forall x:S. P(x)] and [forall x:S. exists x:S. P(x)] *)
Definition all_P : Formula := Forall "x" "S" (Relation "P" [Var "x"]).
Definition shadowed_P : Formula :=
  Forall "x" "S" (Exists "x" "S" (Relation "P" [Var "x"])).

(** A z3 model in which the sort [B] has no element. *)
Definition empty_B : ModelRef :=
  {| get_universe := fun s => if String.eqb s "B" then [] else ["A!val!0"];
     eval_const := fun _ => "A!val!0";
     eval_rel := fun _ _ => false;
     eval_func := fun _ _ => "A!val!0" |}.

(** A world in which the external solver never answers in time. *)
Definition cvc4_slow : Cvc4 :=
  {| run := fun _ _ => Ok TimeoutExpired;
     _parse_model := Examples.parse_one_element |}.

Definition world_slow : World :=
  {| setup := Ok tt; clock := fun _ => Examples.on_time;
     z3 := fun _ => Examples.solver_unsat; cvc4 := fun _ => cvc4_slow |}.

(** A world in which the counterexample timer has run out. *)
Definition out_of_time : Clock :=
  {| enter_counterexample := Raise TimeoutException;
     check_time := Raise TimeoutException;
     enter_separation := Raise TimeoutException |}.

Definition world_late : World :=
  {| setup := Ok tt; clock := fun _ => out_of_time;
     z3 := fun _ => Examples.solver_unsat; cvc4 := fun _ => Examples.cvc4_unsat |}.

(** A world in which hypothesis and target are found equivalent at once. *)
Definition world_unsat : World :=
  {| setup := Ok tt; clock := fun _ => Examples.on_time;
     z3 := fun _ => Examples.solver_unsat; cvc4 := fun _ => Examples.cvc4_unsat |}.

(** A separator that always proposes [true]. *)
Definition always_true : Separator.ops nat :=
  {| Separator.new := fun _ _ _ => 0;
     Separator.add_model := fun _ n => Returns (S n) n;
     Separator.separate := fun _ _ _ _ _ n => Returns n (Some (And [])) |}.
End MoreExamples.

(** * Properties *)

(** ** Environment *)

Lemma pop_bind (v s : string) (e : Environment.t) :
  Environment.pop (Environment.bind v s e)
  = Returns (Environment.mk (Environment.sig e) (delete v (Environment.bound e))
                            (Environment.stack e)) tt.
Proof.
  unfold Environment.pop, Environment.bind; simpl.
  rewrite last_snoc, lookup_insert_eq, removelast_last, delete_insert_eq.
  reflexivity.
Qed.

(** Binding two different names and popping the inner one leaves the outer
    binding in place. *)
Lemma pop_keeps_other_binding (v w s1 s2 : string) (e : Environment.t) :
  v ≠ w ->
  exists e', Environment.pop (Environment.bind w s2 (Environment.bind v s1 e)) = Returns e' tt
             /\ Environment.lookup_var v e' = Some s1.
Proof.
  intros Hvw. rewrite pop_bind. eexists; split; [reflexivity|].
  unfold Environment.lookup_var; simpl.
  rewrite lookup_delete_ne, lookup_insert_eq by congruence. reflexivity.
Qed.

(** C3, as stated, fails: with no constant named [x], binding [x] to [A],
    binding it again to [B] and popping once leaves [x] unbound, so
    [lookup_var] answers [None], not [A]. *)
Lemma rebinding_is_not_restored :
  exists e',
    Environment.pop
      (Environment.bind "x" "B"
         (Environment.bind "x" "A" (Environment.init Signature.init)))
    = Returns e' tt
    /\ Environment.lookup_var "x" e' = None
    /\ Environment.lookup_var "x" e' <> Some "A".
Proof.
  eexists; split; [reflexivity|]. split; [reflexivity|discriminate].
Qed.

(** C3, amended: after [e.bind(v, s1); e.bind(v, s2); e.pop()] the pop
    succeeds and the name [v] is not bound any more, the second [bind]
    having overwritten the first binding and [pop] having deleted it:
    [lookup_var(v)] answers what the constants of the signature say about
    [v], which is [None] when [v] is not a constant. *)
Theorem rebinding_then_pop_unbinds (e : Environment.t) (v s1 s2 : string) :
  exists e',
    Environment.pop (Environment.bind v s2 (Environment.bind v s1 e)) = Returns e' tt
    /\ Environment.bound e' !! v = None
    /\ Environment.stack e' = Environment.stack e ++ [v]
    /\ Environment.lookup_var v e'
       = Signature.constants (Environment.sig e) !! v.
Proof.
  rewrite pop_bind. eexists; split; [reflexivity|]. simpl.
  assert (Hnone : delete v (<[v := s1]> (Environment.bound e)) !! v = None)
    by apply lookup_delete_eq.
  repeat split; [exact Hnone|].
  unfold Environment.lookup_var; simpl. rewrite Hnone.
  destruct (Signature.constants (Environment.sig e) !! v); reflexivity.
Qed.

(** ** Model: the add operations *)

Lemma add_elem_duplicate (name sort : string) (m : Model.t) :
  is_Some (Model.elems m !! name) ->
  Model.add_elem name sort m = Returns m (PyBool false).
Proof. intros [i Hi]. unfold Model.add_elem. rewrite Hi. reflexivity. Qed.

Lemma add_constant_duplicate (name elem : string) (m : Model.t) :
  is_Some (Model.constants m !! name) ->
  Model.add_constant name elem m = Returns m (PyBool false).
Proof. intros [i Hi]. unfold Model.add_constant. rewrite Hi. reflexivity. Qed.

Lemma add_elem_returns (name sort : string) (m m' : Model.t) (v : PyVal) :
  Model.add_elem name sort m = Returns m' v ->
  v = PyBool (bool_decide (Model.elems m !! name = None)).
Proof.
  unfold Model.add_elem. destruct (Model.elems m !! name) eqn:E.
  - intros [= _ <-]. rewrite bool_decide_eq_false_2; [reflexivity|discriminate].
  - destruct (Signature.sort_indices (Model.sig m) !! sort); [|discriminate].
    destruct (Model.elems_of_sort_index m !! n); [|discriminate].
    intros [= _ <-]. rewrite bool_decide_eq_true_2; reflexivity.
Qed.

Lemma add_constant_returns (name elem : string) (m m' : Model.t) (v : PyVal) :
  Model.add_constant name elem m = Returns m' v ->
  v = PyBool (bool_decide (Model.constants m !! name = None)).
Proof.
  unfold Model.add_constant. destruct (Model.constants m !! name) eqn:E.
  - intros [= _ <-]. rewrite bool_decide_eq_false_2; [reflexivity|discriminate].
  - destruct (Model.elems m !! elem); [|discriminate].
    intros [= _ <-]. rewrite bool_decide_eq_true_2; reflexivity.
Qed.

Lemma add_relation_returns (rel : string) (args : list string) (m m' : Model.t) (v : PyVal) :
  Model.add_relation rel args m = Returns m' v -> v = PyNone.
Proof.
  unfold Model.add_relation. destruct (Model.relations m !! rel); [|discriminate].
  destruct (Model.elems_tuple m args); [|discriminate]. intros [= _ <-]. reflexivity.
Qed.

Lemma add_function_returns (func : string) (args : list string) (result : string)
    (m m' : Model.t) (v : PyVal) :
  Model.add_function func args result m = Returns m' v -> v = PyNone.
Proof.
  unfold Model.add_function. destruct (Model.elems m !! result); [|discriminate].
  destruct (Model.functions m !! func); [|discriminate].
  destruct (Model.elems_tuple m args); [|discriminate]. intros [= _ <-]. reflexivity.
Qed.

(** C4, as stated, fails: adding a tuple to a relation hands back [None]
    and no boolean, the first time and the second time alike. *)
Lemma add_relation_returns_no_boolean :
  exists m m' m'',
    Examples.model_P = Ok m
    /\ Model.add_relation "P" ["e"] m = Returns m' PyNone
    /\ Model.relations m' !! "P" = Some {[ [0] ]}
    /\ Model.add_relation "P" ["e"] m' = Returns m'' PyNone
    /\ forall b, PyNone <> PyBool b.
Proof.
  do 3 eexists. split; [reflexivity|]. split; [reflexivity|].
  split; [reflexivity|]. split; [reflexivity|]. discriminate.
Qed.

(** C4, amended: [add_elem] and [add_constant] return a boolean telling
    whether the entry was new, and inserting a duplicate element or a
    duplicate constant leaves the Model as it was and returns [False]
    without raising; [add_relation] and [add_function] return no value
    ([None]). *)
Theorem add_operations_results (m : Model.t) :
  (forall name sort m' v,
      Model.add_elem name sort m = Returns m' v ->
      v = PyBool (bool_decide (Model.elems m !! name = None)))
  /\ (forall name elem m' v,
      Model.add_constant name elem m = Returns m' v ->
      v = PyBool (bool_decide (Model.constants m !! name = None)))
  /\ (forall name sort,
      is_Some (Model.elems m !! name) ->
      Model.add_elem name sort m = Returns m (PyBool false))
  /\ (forall name elem,
      is_Some (Model.constants m !! name) ->
      Model.add_constant name elem m = Returns m (PyBool false))
  /\ (forall rel args m' v,
      Model.add_relation rel args m = Returns m' v -> v = PyNone)
  /\ (forall func args result m' v,
      Model.add_function func args result m = Returns m' v -> v = PyNone).
Proof.
  repeat split.
  - intros; eapply add_elem_returns; eassumption.
  - intros; eapply add_constant_returns; eassumption.
  - intros; apply add_elem_duplicate; assumption.
  - intros; apply add_constant_duplicate; assumption.
  - intros; eapply add_relation_returns; eassumption.
  - intros; eapply add_function_returns; eassumption.
Qed.

(** A duplicate element and a duplicate constant on a model that has both. *)
Lemma add_operations_results_witness :
  exists m,
    Examples.well_sorted_model = Ok m
    /\ Model.add_elem "a0" "B" m = Returns m (PyBool false)
    /\ Model.add_constant "c" "b0" m = Returns m (PyBool false).
Proof.
  eexists. split; [reflexivity|]. split.
  - apply add_operations_results. exists 0. reflexivity.
  - apply add_operations_results. exists 0. reflexivity.
Defined.

(** ** solve_with_cvc4 *)

(** C5, as stated, fails: a first output line that is none of the three
    tokens stops [solve_with_cvc4] on its [assert False]. *)
Lemma malformed_first_line_raises :
  solve_with_cvc4 Examples.parse_one_element
    (CompletedProcess 0 ["(error)"; "sat"]) Examples.sig_S
  = Raise (AssertionError "got weird: (error)")
  /\ solve_with_cvc4 Examples.parse_one_element
       (CompletedProcess 0 ["(error)"; "sat"]) Examples.sig_S
     <> Ok (unknown, None).
Proof. split; [reflexivity|discriminate]. Qed.

(** C5, amended: [solve_with_cvc4] returns [unknown] with no model when the
    subprocess times out or exits with a non-zero return code; when the
    subprocess exits with code zero and a first output line other than
    [unsat], [unknown] and [sat], it raises an [AssertionError] naming that
    line. *)
Theorem solve_with_cvc4_failures
    (parse_model : Signature.t -> list string -> Res Model.t) (sig : Signature.t) :
  solve_with_cvc4 parse_model TimeoutExpired sig = Ok (unknown, None)
  /\ (forall returncode lines,
      returncode <> 0%Z ->
      solve_with_cvc4 parse_model (CompletedProcess returncode lines) sig
      = Ok (unknown, None))
  /\ (forall line rest,
      line <> "unsat" -> line <> "unknown" -> line <> "sat" ->
      solve_with_cvc4 parse_model (CompletedProcess 0 (line :: rest)) sig
      = Raise (AssertionError ("got weird: " +:+ line))).
Proof.
  split; [reflexivity|]. split.
  - intros rc lines Hrc. unfold solve_with_cvc4.
    destruct (Z.eqb_spec rc 0); [contradiction|reflexivity].
  - intros line rest H1 H2 H3. unfold solve_with_cvc4. simpl.
    apply String.eqb_neq in H1, H2, H3. rewrite H1, H2, H3. reflexivity.
Qed.

Lemma solve_with_cvc4_failures_witness :
  solve_with_cvc4 Examples.parse_one_element (CompletedProcess 1 ["sat"]) Examples.sig_S
  = Ok (unknown, None)
  /\ solve_with_cvc4 Examples.parse_one_element (CompletedProcess 0 ["(error)"])
       Examples.sig_S
     = Raise (AssertionError "got weird: (error)").
Proof.
  destruct (solve_with_cvc4_failures Examples.parse_one_element Examples.sig_S)
    as (_ & Hcode & Hline).
  split.
  - apply Hcode. discriminate.
  - apply Hline; discriminate.
Defined.

(** ** The evaluator *)

Lemma loop_all_any {A : Type} (p : A -> Res bool) (l : list A) :
  loop_all p l = negb <$> loop_any (fun x => negb <$> p x) l.
Proof.
  induction l as [|x l IH]; simpl; [reflexivity|].
  destruct (p x) as [[|]|e]; simpl; auto.
Qed.

(** C7: quantifier duality.  On every model and under every assumption map
    [check(Forall(v, s, f))] is the negation of [check(Exists(v, s, Not(f)))];
    when one of them raises, the other raises the same exception. *)
Theorem quantifier_duality (f : Formula) (m : Model.t) (v s : string)
    (A : gmap string nat) :
  check (Forall v s f) m A = negb <$> check (Exists v s (Not f)) m A.
Proof. simpl. apply loop_all_any. Qed.

(** C8: the empty conjunction is true and the empty disjunction is false, on
    every model and under every assumption map. *)
Theorem empty_and_or (m : Model.t) (A : gmap string nat) :
  check (And []) m A = Ok true /\ check (Or []) m A = Ok false.
Proof. split; reflexivity. Qed.

(** C10: over a sort with no element in the model, be it a sort whose list
    is empty or a sort that [elems_of_sort] has no key for, a universal
    formula is true and an existential formula is false, whatever the body,
    and nothing is raised. *)
Theorem quantifier_over_empty_sort (m : Model.t) (v s : string) (f : Formula)
    (A : gmap string nat) :
  Model.elems_of_sort m !! s = None \/ Model.elems_of_sort m !! s = Some [] ->
  check (Forall v s f) m A = Ok true /\ check (Exists v s f) m A = Ok false.
Proof.
  intros H. simpl. unfold Model.universe.
  destruct H as [-> | ->]; split; reflexivity.
Qed.

Lemma quantifier_over_empty_sort_witness :
  check (Forall "x" "T" (Relation "undeclared" [Var "y"]))
        (Model.init Examples.sig_S) ∅ = Ok true
  /\ check (Exists "x" "T" (Relation "undeclared" [Var "y"]))
          (Model.init Examples.sig_S) ∅ = Ok false.
Proof.
  apply (quantifier_over_empty_sort (Model.init Examples.sig_S) "x" "T").
  left. reflexivity.
Defined.

(** ** Renaming *)

Lemma filter_other_keys (mapping : gmap string string) (v : string) :
  filter (fun ab : string * string => ab.1 ≠ v) mapping = delete v mapping.
Proof.
  apply map_eq; intros k. destruct (decide (k = v)) as [->|Hk].
  - rewrite lookup_delete_eq. apply map_lookup_filter_None. right.
    intros x _ Hx. apply Hx. reflexivity.
  - rewrite lookup_delete_ne by congruence.
    destruct (mapping !! k) as [x|] eqn:E.
    + apply map_lookup_filter_Some. split; [assumption|exact Hk].
    + apply map_lookup_filter_None. left. assumption.
Qed.

(** C9: under a binder whose variable [v] is a key of the mapping, the body
    is renamed with the mapping without the key [v], for [Forall] and for
    [Exists]; that mapping still has every other entry, and the mapping
    itself is unchanged outside the binder, where [v] is still renamed. *)
Theorem rename_under_binder (v s : string) (f : Formula) (M : gmap string string) :
  is_Some (M !! v) ->
  rename_free_vars (Forall v s f) M = Forall v s (rename_free_vars f (delete v M))
  /\ rename_free_vars (Exists v s f) M = Exists v s (rename_free_vars f (delete v M))
  /\ rename_free_vars_term (Var v) (delete v M) = Var v
  /\ (forall k, k <> v -> delete v M !! k = M !! k)
  /\ (forall g,
        rename_free_vars (And [Equal (Var v) (Var v); Forall v s g]) M
        = And [Equal (Var (default v (M !! v))) (Var (default v (M !! v)));
               Forall v s (rename_free_vars g (delete v M))]).
Proof.
  intros [w Hw]. simpl. rewrite Hw, filter_other_keys. simpl.
  repeat split.
  - rewrite lookup_delete_eq. reflexivity.
  - intros k Hk. apply lookup_delete_ne. congruence.
Qed.

Lemma rename_under_binder_witness :
  rename_free_vars
    (Forall "x" "S" (Relation "r" [Var "x"; Var "y"]))
    {["x" := "a"; "y" := "b"]}
  = Forall "x" "S" (Relation "r" [Var "x"; Var "b"]).
Proof.
  destruct (rename_under_binder "x" "S" (Relation "r" [Var "x"; Var "y"])
              {["x" := "a"; "y" := "b"]}) as (H & _).
  - exists "a". reflexivity.
  - rewrite H. reflexivity.
Defined.

(** ** Totality of the evaluator on complete, well-sorted models *)

Lemma forallb_elem_of {A : Type} (p : A -> bool) (l : list A) (x : A) :
  forallb p l = true -> x ∈ l -> p x = true.
Proof.
  intros H Hx. rewrite forallb_forall in H. apply H, list_elem_of_In, Hx.
Qed.

Lemma product_elem_of {A : Type} (t : list A) (ls : list (list A)) :
  Forall2 (fun x l => x ∈ l) t ls -> t ∈ product ls.
Proof.
  induction 1 as [|x l t ls Hx _ IH]; simpl.
  - apply list_elem_of_singleton. reflexivity.
  - apply list_elem_of_bind. exists x. split; [|exact Hx].
    apply list_elem_of_bind. exists t. split; [|exact IH].
    apply list_elem_of_singleton. reflexivity.
Qed.

Lemma loop_all_total {A : Type} (p : A -> Res bool) (l : list A) :
  (forall x, x ∈ l -> exists b, p x = Ok b) -> exists b, loop_all p l = Ok b.
Proof.
  induction l as [|x l IH]; intros H; simpl; [eauto|].
  destruct (H x) as [[|] ->]; [left| |]; eauto.
  apply IH. intros y Hy. apply H. right. exact Hy.
Qed.

Lemma loop_any_total {A : Type} (p : A -> Res bool) (l : list A) :
  (forall x, x ∈ l -> exists b, p x = Ok b) -> exists b, loop_any p l = Ok b.
Proof.
  induction l as [|x l IH]; intros H; simpl; [eauto|].
  destruct (H x) as [[|] ->]; [left| |]; eauto.
  apply IH. intros y Hy. apply H. right. exact Hy.
Qed.

Lemma complete_parts (m : Model.t) (sig : Signature.t) :
  model_is_complete_wrt_sig m sig = true ->
  forallb (fun sort => negb (Nat.eqb (length (Model.universe m sort)) 0))
          (elements (Signature.sorts sig)) = true
  /\ forallb (fun c => bool_decide (is_Some (Model.constants m !! c)))
             (elements (dom (Signature.constants sig))) = true
  /\ forallb (fun rel => bool_decide (is_Some (Model.relations m !! rel)))
             (elements (dom (Signature.relations sig))) = true
  /\ forallb (fun item : string * (list string * string) =>
                let '(func, (sorts, ret_sort)) := item in
                match Model.functions m !! func with
                | None => false
                | Some repr =>
                    forallb (fun t => bool_decide (is_Some (repr !! t)))
                            (product (map (Model.universe m) sorts))
                end)
             (map_to_list (Signature.functions sig)) = true.
Proof.
  unfold model_is_complete_wrt_sig.
  repeat match goal with
         | |- context [negb (forallb ?p ?l)] => destruct (forallb p l); simpl
         end; intros H; try discriminate H; auto.
Qed.

Section Complete.
Variable m : Model.t.
Variable sig : Signature.t.
Hypothesis Hcomplete : model_is_complete_wrt_sig m sig = true.
Hypothesis Hsorted : model_is_well_sorted m sig = true.

Lemma complete_constant (c s : string) :
  Signature.constants sig !! c = Some s ->
  exists e, Model.constants m !! c = Some e /\ e ∈ Model.universe m s.
Proof.
  intros Hc. destruct (complete_parts m sig Hcomplete) as (_ & H & _ & _).
  assert (Hin := forallb_elem_of _ _ c H). simpl in Hin.
  rewrite bool_decide_eq_true in Hin. destruct Hin as [e He].
  { apply elem_of_elements, elem_of_dom. eauto. }
  exists e. split; [exact He|].
  unfold model_is_well_sorted in Hsorted. apply andb_true_iff in Hsorted as [Hs _].
  assert (Hs' := forallb_elem_of _ _ (c, s) Hs). simpl in Hs'. rewrite He in Hs'.
  rewrite bool_decide_eq_true in Hs'. apply Hs', elem_of_map_to_list, Hc.
Qed.

Lemma complete_relation (rel : string) (sorts : list string) :
  Signature.relations sig !! rel = Some sorts ->
  is_Some (Model.relations m !! rel).
Proof.
  intros Hr. destruct (complete_parts m sig Hcomplete) as (_ & _ & H & _).
  assert (Hin := forallb_elem_of _ _ rel H). simpl in Hin.
  rewrite bool_decide_eq_true in Hin. apply Hin, elem_of_elements, elem_of_dom. eauto.
Qed.

Lemma complete_function (f : string) (sorts : list string) (ret : string) :
  Signature.functions sig !! f = Some (sorts, ret) ->
  exists repr, Model.functions m !! f = Some repr /\
    forall t, t ∈ product (map (Model.universe m) sorts) ->
              exists r, repr !! t = Some r /\ r ∈ Model.universe m ret.
Proof.
  intros Hf. destruct (complete_parts m sig Hcomplete) as (_ & _ & _ & H).
  assert (Hin := forallb_elem_of _ _ (f, (sorts, ret)) H
                   (proj2 (elem_of_map_to_list _ _ _) Hf)).
  simpl in Hin. destruct (Model.functions m !! f) as [repr|] eqn:Hrepr; [|discriminate].
  exists repr. split; [reflexivity|]. intros t Ht.
  assert (Hdef := forallb_elem_of _ _ t Hin Ht). simpl in Hdef.
  apply bool_decide_eq_true in Hdef as [r Hr]. exists r. split; [exact Hr|].
  unfold model_is_well_sorted in Hsorted. apply andb_true_iff in Hsorted as [_ Hs].
  assert (Hs' := forallb_elem_of _ _ (f, (sorts, ret)) Hs
                   (proj2 (elem_of_map_to_list _ _ _) Hf)).
  simpl in Hs'. rewrite Hrepr in Hs'.
  assert (Hres := forallb_elem_of _ _ t Hs' Ht). simpl in Hres.
  rewrite Hr in Hres. apply bool_decide_eq_true in Hres. exact Hres.
Qed.

Lemma agrees_empty : agrees m ∅ ∅.
Proof. intros x. rewrite !lookup_empty. reflexivity. Qed.

Lemma agrees_insert env A v s e :
  agrees m env A -> e ∈ Model.universe m s -> agrees m (<[v := s]> env) (<[v := e]> A).
Proof.
  intros H He x. destruct (decide (v = x)) as [->|Hne].
  - rewrite !lookup_insert_eq. eauto.
  - rewrite !lookup_insert_ne by exact Hne. apply H.
Qed.

Lemma resolve_term_total env A (t : Term) :
  agrees m env A ->
  forall s, term_sort sig env t = Some s ->
  exists e, resolve_term t m A = Ok e /\ e ∈ Model.universe m s.
Proof.
  intros Hag. induction t as [v|f args IH] using Term_ind; intros s Hs; simpl in *.
  - specialize (Hag v). destruct (env !! v) as [s'|].
    + injection Hs as <-. destruct Hag as (e & -> & He). eauto.
    + rewrite Hag. destruct (complete_constant v s Hs) as (e & -> & He). eauto.
  - destruct (Signature.functions sig !! f) as [[sorts ret]|] eqn:Hf; [|discriminate].
    case_bool_decide as Hargs; [|discriminate]. injection Hs as <-.
    destruct (complete_function f sorts ret Hf) as (repr & -> & Hrepr).
    assert (Htup : exists tup,
               list_comprehension (fun a => resolve_term a m A) args = Ok tup
               /\ Forall2 (fun x l => x ∈ l) tup (map (Model.universe m) sorts)).
    { clear Hf Hrepr. revert sorts Hargs.
      induction IH as [|a args Ha _ IHargs]; intros [|s0 sorts] Hargs;
        simpl in *; try discriminate.
      - exists []. split; [reflexivity|constructor].
      - injection Hargs as Ha0 Hrest.
        destruct (Ha s0 Ha0) as (e & -> & He).
        destruct (IHargs sorts Hrest) as (tup & -> & Htup).
        exists (e :: tup). split; [reflexivity|]. constructor; assumption. }
    destruct Htup as (tup & -> & Htup).
    destruct (Hrepr tup (product_elem_of _ _ Htup)) as (r & -> & Hr). eauto.
Qed.

Lemma resolve_terms_total env A (args : list Term) (sorts : list string) :
  agrees m env A ->
  map (term_sort sig env) args = map Some sorts ->
  exists tup, list_comprehension (fun a => resolve_term a m A) args = Ok tup.
Proof.
  intros Hag. revert sorts. induction args as [|a args IH]; intros [|s0 sorts] Hargs;
    simpl in *; try discriminate.
  - eauto.
  - injection Hargs as Ha0 Hrest.
    destruct (resolve_term_total env A a Hag s0 Ha0) as (e & -> & _).
    destruct (IH sorts Hrest) as (tup & ->). eauto.
Qed.

Lemma check_total (f : Formula) :
  forall env A, agrees m env A -> formula_over sig env f = true ->
  exists b, check f m A = Ok b.
Proof.
  induction f as [c IH|c IH|g IH|v s g IH|v s g IH|a b|rel args] using Formula_ind;
    intros env A Hag Hover; simpl in *.
  - apply loop_all_total. intros x Hx.
    rewrite List.Forall_forall in IH. apply (IH x (proj1 (list_elem_of_In _ _) Hx) env A Hag).
    exact (forallb_elem_of _ _ x Hover Hx).
  - apply loop_any_total. intros x Hx.
    rewrite List.Forall_forall in IH. apply (IH x (proj1 (list_elem_of_In _ _) Hx) env A Hag).
    exact (forallb_elem_of _ _ x Hover Hx).
  - destruct (IH env A Hag Hover) as [b ->]. simpl. eauto.
  - apply loop_any_total. intros e He.
    apply (IH (<[v := s]> env)); [|exact Hover]. apply agrees_insert; assumption.
  - apply loop_all_total. intros e He.
    apply (IH (<[v := s]> env)); [|exact Hover]. apply agrees_insert; assumption.
  - apply andb_true_iff in Hover as [Ha Hb].
    apply bool_decide_eq_true in Ha as [sa Ha], Hb as [sb Hb].
    destruct (resolve_term_total env A a Hag sa Ha) as (x & -> & _).
    destruct (resolve_term_total env A b Hag sb Hb) as (y & -> & _).
    simpl. eauto.
  - destruct (Signature.relations sig !! rel) as [sorts|] eqn:Hrel; [|discriminate].
    apply bool_decide_eq_true in Hover.
    destruct (resolve_terms_total env A args sorts Hag Hover) as (tup & ->). simpl.
    destruct (complete_relation rel sorts Hrel) as [tuples ->]. eauto.
Qed.
End Complete.

(** C2, as stated, fails: a model that passes [model_is_complete_wrt_sig]
    can interpret a constant by an element of another sort, and then a
    closed formula over the signature applies a function outside the tuples
    its table has.  Here [c] has sort [A] but denotes the element 1 of sort
    [B], and evaluating [f(c) = c] raises the KeyError of the missing
    tuple [(1,)]. *)
Lemma complete_model_undefined_application :
  exists m,
    Examples.ill_sorted_model = Ok m
    /\ model_is_complete_wrt_sig m Examples.sig_AB = true
    /\ closed_formula_over Examples.sig_AB Examples.f_c_is_c = true
    /\ check Examples.f_c_is_c m ∅ = Raise (KeyErrorTuple [1]).
Proof.
  eexists. split; [reflexivity|]. repeat split; vm_compute; reflexivity.
Qed.

(** C2, amended: for every Model that is complete with respect to its
    Signature and also well-sorted (each constant denotes an element of its
    sort, each function value on the tuples of its argument sorts is an
    element of its result sort), and for every Formula over that Signature
    with no free variables, [check(f, m, {})] returns a boolean: no
    exception is raised, so neither the undefined-variable branch nor a
    missing function tuple is reached. *)
Theorem check_total_on_complete_model (m : Model.t) (sig : Signature.t) (f : Formula) :
  model_is_complete_wrt_sig m sig = true ->
  model_is_well_sorted m sig = true ->
  closed_formula_over sig f = true ->
  exists b, check f m ∅ = Ok b.
Proof.
  intros Hcomplete Hsorted Hclosed.
  apply (check_total m sig Hcomplete Hsorted f ∅ ∅); [apply agrees_empty|exact Hclosed].
Qed.

Lemma check_total_on_complete_model_witness :
  exists m,
    Examples.well_sorted_model = Ok m
    /\ exists b, check (Forall "x" "A" (And [Examples.f_c_is_c;
                                            Equal (Func "f" [Var "x"]) (Var "c")])) m ∅ = Ok b.
Proof.
  eexists. split; [reflexivity|].
  apply (check_total_on_complete_model _ Examples.sig_AB); vm_compute; reflexivity.
Defined.

(** ** The equivalence oracle *)

#[local] Arguments Pos.to_nat : simpl never.

Lemma for_each_preserves {S A B : Type} (P : S -> Prop) (body : A -> S -> Step S B)
    (l : list A) :
  (forall x s, P s -> P (state_of (body x s))) ->
  forall s, P s -> P (state_of (for_each body l s)).
Proof.
  intros Hbody. induction l as [|x l IH]; intros s Hs; simpl; [exact Hs|].
  specialize (Hbody x s Hs). destruct (body x s) as [s' b|s' e]; simpl in *.
  - apply IH, Hbody.
  - exact Hbody.
Qed.

Lemma finished_state {S A : Type} (r : Step S A) (s : S) :
  finished r = Ok s -> state_of r = s.
Proof. destruct r; simpl; congruence. Qed.

Lemma add_elem_label name sort m :
  Model.label (state_of (Model.add_elem name sort m)) = Model.label m.
Proof.
  unfold Model.add_elem. destruct (Model.elems m !! name); [reflexivity|].
  destruct (Signature.sort_indices (Model.sig m) !! sort) as [i|]; [|reflexivity].
  destruct (Model.elems_of_sort_index m !! i); reflexivity.
Qed.

Lemma add_constant_label name elem m :
  Model.label (state_of (Model.add_constant name elem m)) = Model.label m.
Proof.
  unfold Model.add_constant. destruct (Model.constants m !! name); [reflexivity|].
  destruct (Model.elems m !! elem); reflexivity.
Qed.

Lemma add_relation_label rel args m :
  Model.label (state_of (Model.add_relation rel args m)) = Model.label m.
Proof.
  unfold Model.add_relation. destruct (Model.relations m !! rel); [|reflexivity].
  destruct (Model.elems_tuple m args); reflexivity.
Qed.

Lemma add_function_label func args result m :
  Model.label (state_of (Model.add_function func args result m)) = Model.label m.
Proof.
  unfold Model.add_function. destruct (Model.elems m !! result); [|reflexivity].
  destruct (Model.functions m !! func); [|reflexivity].
  destruct (Model.elems_tuple m args); reflexivity.
Qed.

(** The model [extract_model] returns carries the label it was given. *)
Lemma extract_model_label (mref : ModelRef) (sig : Signature.t) (label : string)
    (M : Model.t) :
  extract_model mref sig label = Ok M -> Model.label M = label.
Proof.
  unfold extract_model. set (P := fun M : Model.t => Model.label M = label).
  destruct (finished (for_each _ (sorted (elements (Signature.sorts sig))) _))
    as [M1|] eqn:E1; [|discriminate]. simpl.
  destruct (finished (for_each _ (sorted_items (Signature.constants sig)) M1))
    as [M2|] eqn:E2; [|discriminate]. simpl.
  destruct (finished (for_each _ (sorted_items (Signature.relations sig)) M2))
    as [M3|] eqn:E3; [|discriminate]. simpl.
  intros E4.
  apply finished_state in E1, E2, E3, E4.
  assert (H1 : P M1).
  { rewrite <- E1. apply for_each_preserves; [|reflexivity].
    intros sort s Hs. destruct (Nat.eqb _ 0); [exact Hs|].
    apply for_each_preserves; [|exact Hs].
    intros e s' Hs'. unfold P. rewrite add_elem_label. exact Hs'. }
  assert (H2 : P M2).
  { rewrite <- E2. apply for_each_preserves; [|exact H1].
    intros cs s Hs. unfold P. rewrite add_constant_label. exact Hs. }
  assert (H3 : P M3).
  { rewrite <- E3. apply for_each_preserves; [|exact H2].
    intros rs s Hs. apply for_each_preserves; [|exact Hs].
    intros t s' Hs'. destruct (eval_rel mref rs.1 t); [|exact Hs'].
    unfold P. rewrite add_relation_label. exact Hs'. }
  rewrite <- E4. apply for_each_preserves; [|exact H3].
  intros fs s Hs. apply for_each_preserves; [|exact Hs].
  intros t s' Hs'. unfold P. rewrite add_function_label. exact Hs'.
Qed.

Lemma fm_sat solver a b bound :
  solver_check solver a b bound = Ok sat ->
  fm solver a b bound = Ok (sat, Some (solver_model solver a b bound)).
Proof. intros H. unfold fm. rewrite H. reflexivity. Qed.

Lemma fm_not_sat solver a b bound r :
  solver_check solver a b bound = Ok r -> r <> sat ->
  fm solver a b bound = Ok (r, None).
Proof.
  intros H Hr. unfold fm. rewrite H. simpl.
  destruct (decide (r = sat)); [contradiction|reflexivity].
Qed.

(** The minimisation loop returns the model of the first bound under which
    the query is satisfiable. *)
Lemma minimize_first solver a b sig label (n k k0 : nat) :
  k <= k0 < k + n ->
  (forall j, k <= j < k0 ->
             exists r, solver_check solver a b (Some j) = Ok r /\ r <> sat) ->
  solver_check solver a b (Some k0) = Ok sat ->
  minimize solver a b sig label n k
  = Some <$> extract_model (solver_model solver a b (Some k0)) sig label.
Proof.
  revert k. induction n as [|n IH]; intros k Hk Hbefore Hsat; [lia|].
  simpl. destruct (decide (k = k0)) as [->|Hne].
  - rewrite (fm_sat _ _ _ _ Hsat). reflexivity.
  - destruct (Hbefore k) as (r & Hr & Hns); [lia|].
    rewrite (fm_not_sat _ _ _ _ _ Hr Hns). simpl.
    apply IH; [lia| |exact Hsat]. intros j Hj. apply Hbefore. lia.
Qed.

Lemma minimize_first_bounded solver a b sig label k :
  first_bounded_model solver a b k ->
  minimize solver a b sig label (Pos.to_nat 99999) 1
  = Some <$> extract_model (solver_model solver a b (Some k)) sig label.
Proof.
  intros (Hk & Hbefore & Hsat). apply minimize_first; [lia| |exact Hsat].
  exact Hbefore.
Qed.

(** C1, as stated, fails on the labels.  With hypothesis [true] and target
    [false] the first query, the hypothesis without the target, is
    satisfiable, and both halves label the counterexample ["-"], not ["+"];
    with hypothesis [false] and target [true] only the second query is
    satisfiable and the counterexample is labelled ["+"]. *)
Lemma first_query_model_is_labelled_minus :
  (exists M,
      find_model_or_equivalence Examples.solver_weak (And []) (Or [])
        (Environment.init Examples.sig_S) = Ok (Some M)
      /\ Model.label M = "-" /\ Model.label M <> "+")
  /\ (exists M,
      find_model_or_equivalence_cvc4 Examples.cvc4_weak (And []) (Or [])
        (Environment.init Examples.sig_S) = Ok (Some M)
      /\ Model.label M = "-" /\ Model.label M <> "+")
  /\ (exists M,
      find_model_or_equivalence Examples.solver_weak (Or []) (And [])
        (Environment.init Examples.sig_S) = Ok (Some M)
      /\ Model.label M = "+" /\ Model.label M <> "-")
  /\ (exists M,
      find_model_or_equivalence_cvc4 Examples.cvc4_weak (Or []) (And [])
        (Environment.init Examples.sig_S) = Ok (Some M)
      /\ Model.label M = "+" /\ Model.label M <> "-").
Proof.
  repeat split; (eexists; split; [vm_compute; reflexivity|]);
    (split; [reflexivity|discriminate]).
Qed.

(** C1, amended: per equivalence query on hypothesis [a] and target [b],
    the oracle first checks [a] conjoined with the negation of [b] and, if
    that is satisfiable, returns the counterexample Model labelled ["-"]
    (for the embedded solver: the model extracted under the first bound on
    the sort sizes that keeps the query satisfiable); otherwise it checks
    [b] conjoined with the negation of [a] and, if satisfiable, returns the
    counterexample labelled ["+"]; if both checks are unsatisfiable it
    returns no model.  This holds for [find_model_or_equivalence] and for
    [find_model_or_equivalence_cvc4]. *)
Theorem oracle_state_machine (solver : Solver) (cvc4 : Cvc4) (a b : Formula)
    (env : Environment.t) :
  (forall k,
      solver_check solver a b None = Ok sat ->
      first_bounded_model solver a b k ->
      find_model_or_equivalence solver a b env
      = Some <$> extract_model (solver_model solver a b (Some k)) (Environment.sig env) "-")
  /\ (forall r1 k,
      solver_check solver a b None = Ok r1 -> r1 <> sat ->
      solver_check solver b a None = Ok sat ->
      first_bounded_model solver b a k ->
      find_model_or_equivalence solver a b env
      = Some <$> extract_model (solver_model solver b a (Some k)) (Environment.sig env) "+")
  /\ (solver_check solver a b None = Ok unsat ->
      solver_check solver b a None = Ok unsat ->
      find_model_or_equivalence solver a b env = Ok None)
  /\ (forall mref label M,
      extract_model mref (Environment.sig env) label = Ok M -> Model.label M = label)
  /\ (forall res1 r1 M,
      run cvc4 a b = Ok res1 ->
      solve_with_cvc4 (_parse_model cvc4) res1 (Environment.sig env) = Ok (r1, Some M) ->
      find_model_or_equivalence_cvc4 cvc4 a b env = Ok (Some (Model.set_label "-" M))
      /\ Model.label (Model.set_label "-" M) = "-")
  /\ (forall res1 r1 res2 r2 M,
      run cvc4 a b = Ok res1 ->
      solve_with_cvc4 (_parse_model cvc4) res1 (Environment.sig env) = Ok (r1, None) ->
      run cvc4 b a = Ok res2 ->
      solve_with_cvc4 (_parse_model cvc4) res2 (Environment.sig env) = Ok (r2, Some M) ->
      find_model_or_equivalence_cvc4 cvc4 a b env = Ok (Some (Model.set_label "+" M))
      /\ Model.label (Model.set_label "+" M) = "+")
  /\ (forall res1 res2,
      run cvc4 a b = Ok res1 ->
      solve_with_cvc4 (_parse_model cvc4) res1 (Environment.sig env) = Ok (unsat, None) ->
      run cvc4 b a = Ok res2 ->
      solve_with_cvc4 (_parse_model cvc4) res2 (Environment.sig env) = Ok (unsat, None) ->
      find_model_or_equivalence_cvc4 cvc4 a b env = Ok None).
Proof.
  split; [|split; [|split; [|split; [|split; [|split]]]]].
  - intros k H1 Hk. unfold find_model_or_equivalence.
    rewrite (fm_sat _ _ _ _ H1). exact (minimize_first_bounded _ _ _ _ _ _ Hk).
  - intros r1 k H1 Hr1 H2 Hk. unfold find_model_or_equivalence.
    rewrite (fm_not_sat _ _ _ _ _ H1 Hr1). cbn [mbind Res_bind snd].
    rewrite (fm_sat _ _ _ _ H2). exact (minimize_first_bounded _ _ _ _ _ _ Hk).
  - intros H1 H2. unfold find_model_or_equivalence.
    rewrite (fm_not_sat _ _ _ _ _ H1), (fm_not_sat _ _ _ _ _ H2) by discriminate.
    reflexivity.
  - intros mref label M. apply extract_model_label.
  - intros res1 r1 M H1 H2. unfold find_model_or_equivalence_cvc4.
    rewrite H1. simpl. rewrite H2. split; reflexivity.
  - intros res1 r1 res2 r2 M H1 H2 H3 H4. unfold find_model_or_equivalence_cvc4.
    rewrite H1. simpl. rewrite H2. simpl. rewrite H3. simpl. rewrite H4.
    split; reflexivity.
  - intros res1 res2 H1 H2 H3 H4. unfold find_model_or_equivalence_cvc4.
    rewrite H1. simpl. rewrite H2. simpl. rewrite H3. simpl. rewrite H4. reflexivity.
Qed.

Lemma oracle_state_machine_witness :
  find_model_or_equivalence Examples.solver_weak (And []) (Or [])
    (Environment.init Examples.sig_S)
  = Some <$> extract_model Examples.one_element Examples.sig_S "-"
  /\ find_model_or_equivalence Examples.solver_weak (Or []) (And [])
       (Environment.init Examples.sig_S)
     = Some <$> extract_model Examples.one_element Examples.sig_S "+"
  /\ find_model_or_equivalence Examples.solver_unsat (Or []) (And [])
       (Environment.init Examples.sig_S) = Ok None
  /\ (exists M,
       Examples.one_element_model = Ok M
       /\ find_model_or_equivalence_cvc4 Examples.cvc4_weak (And []) (Or [])
            (Environment.init Examples.sig_S) = Ok (Some (Model.set_label "-" M)))
  /\ (exists M,
       Examples.one_element_model = Ok M
       /\ find_model_or_equivalence_cvc4 Examples.cvc4_weak (Or []) (And [])
            (Environment.init Examples.sig_S) = Ok (Some (Model.set_label "+" M)))
  /\ find_model_or_equivalence_cvc4 Examples.cvc4_unsat (Or []) (And [])
       (Environment.init Examples.sig_S) = Ok None.
Proof.
  assert (Hfirst : forall a b,
             solver_check Examples.solver_weak a b None = Ok sat ->
             first_bounded_model Examples.solver_weak a b 1).
  { intros a b H. split; [lia|]. split; [intros j Hj; lia|exact H]. }
  destruct (oracle_state_machine Examples.solver_weak Examples.cvc4_weak (And []) (Or [])
              (Environment.init Examples.sig_S)) as (E1 & _ & _ & _ & V1 & _ & _).
  destruct (oracle_state_machine Examples.solver_weak Examples.cvc4_weak (Or []) (And [])
              (Environment.init Examples.sig_S)) as (_ & E2 & _ & _ & _ & V2 & _).
  destruct (oracle_state_machine Examples.solver_unsat Examples.cvc4_unsat (Or []) (And [])
              (Environment.init Examples.sig_S)) as (_ & _ & E3 & _ & _ & _ & V3).
  split; [|split; [|split; [|split; [|split]]]].
  - apply (E1 1); [reflexivity|]. apply Hfirst. reflexivity.
  - apply (E2 unsat 1); [reflexivity|discriminate|reflexivity|].
    apply Hfirst. reflexivity.
  - apply E3; reflexivity.
  - eexists. split; [reflexivity|]. eapply V1; reflexivity.
  - eexists. split; [reflexivity|]. eapply (V2 _ unsat _ sat); reflexivity.
  - eapply V3; reflexivity.
Defined.

(** ** The refinement loop *)

Section LearnProperties.
Context {Sep : Type} `{!Separator.ops Sep}.
Variable world : World.
Variable sig : Signature.t.
Variable formula : Formula.
Variable args : Args.

Lemma iteration_continue_success i (st st' : LoopState Sep) :
  iteration world sig formula args i st = Continue st' ->
  success (result st') = success (result st).
Proof.
  unfold iteration.
  destruct (enter_counterexample _); [|discriminate].
  destruct (if negb (no_cvc4 args) then _ else _) as [[r|]|]; try discriminate;
    destruct (check_time _); try discriminate.
  destruct (enter_separation _); [|discriminate].
  destruct (Separator.add_model r (sep st)) as [sep1 ident|]; [|discriminate].
  destruct (Separator.separate _ _ _ _ _ sep1) as [sep2 [c|]|]; try discriminate.
  intros [= <-]. reflexivity.
Qed.

(** Every state in which an iteration starts has the success flag unset. *)
Lemma reaches_success axioms i (st : LoopState Sep) :
  reaches world sig formula args axioms i st -> success (result st) = false.
Proof.
  induction 1 as [|i st st' _ IH Hstep]; [reflexivity|].
  rewrite (iteration_continue_success _ _ _ Hstep). exact IH.
Qed.

(** Running the loop from the start passes through every reached state. *)
Lemma learn_loop_reaches axioms i (st : LoopState Sep) :
  reaches world sig formula args axioms i st ->
  forall k, learn_loop world sig formula args (i + k) 0 (learn_start sig formula args axioms)
            = learn_loop world sig formula args k i st.
Proof.
  induction 1 as [|i st st' _ IH Hstep]; intros k; [reflexivity|].
  replace (S i + k) with (i + S k) by lia. rewrite IH. simpl. rewrite Hstep.
  reflexivity.
Qed.

(** An iteration in which the separator finds no candidate leaves the loop
    by [break], with the reason set. *)
Lemma iteration_no_candidate i (st : LoopState Sep) r sep1 ident sep2 :
  enter_counterexample (clock world i) = Ok tt ->
  (if negb (no_cvc4 args)
   then find_model_or_equivalence_cvc4 (cvc4 world i) (current (result st)) formula
          (Environment.init sig)
   else find_model_or_equivalence (z3 world i) (current (result st)) formula
          (Environment.init sig)) = Ok (Some r) ->
  check_time (clock world i) = Ok tt ->
  enter_separation (clock world i) = Ok tt ->
  Separator.add_model r (sep st) = Returns sep1 ident ->
  Separator.separate
    (if String.prefix "+" (Model.label r)
     then p_constraints st ++ [ident] else p_constraints st)
    (if String.prefix "+" (Model.label r)
     then n_constraints st else n_constraints st ++ [ident])
    [] (max_clauses args) (max_depth args) sep1 = Returns sep2 None ->
  exists st',
    iteration world sig formula args i st = Break st'
    /\ result st' = {| success := success (result st);
                       current := current (result st);
                       models := models (result st) ++ [r];
                       reason := couldnt_separate |}.
Proof.
  intros H1 H2 H3 H4 H5 H6. unfold iteration.
  rewrite H1, H2, H3, H4, H5, H6. eexists. split; reflexivity.
Qed.
End LearnProperties.

(** C6, as stated, fails on the text of the reason: when the separator
    finds no candidate the run ends with the reason "couldn't separate
    models under given restrictions", which is not the string "couldn't
    separate".  Here the first counterexample of a run against the target
    [true] goes to a separator that has no candidate. *)
Lemma reason_is_the_long_sentence :
  exists res,
    learn (Sep := nat) Examples.world_weak Examples.sig_S (And []) Examples.args_cvc4 1 []
    = Some (Ok res)
    /\ success res = false
    /\ reason res = "couldn't separate models under given restrictions"
    /\ reason res <> "couldn't separate".
Proof.
  eexists. split; [vm_compute; reflexivity|].
  split; [reflexivity|]. split; [reflexivity|]. discriminate.
Qed.

(** C6, amended: whenever the Separator's [separate] call returns no
    candidate, the run ends with a LearningResult whose success flag is
    false and whose reason is "couldn't separate models under given
    restrictions", a reason other than "timeout".  In [learn] this holds at
    whatever iteration the call is made, given enough fuel to get there; the
    result keeps the hypothesis of that iteration and has the last
    counterexample appended to its models.  In batch [separate] the result
    has the models of the file. *)
Theorem no_candidate_ends_run {Sep : Type} `{!Separator.ops Sep}
    (world : World) (args : Args) :
  (forall sig formula axioms i (st : LoopState Sep) r sep1 ident sep2 fuel,
      setup world = Ok tt ->
      reaches world sig formula args axioms i st ->
      enter_counterexample (clock world i) = Ok tt ->
      (if negb (no_cvc4 args)
       then find_model_or_equivalence_cvc4 (cvc4 world i) (current (result st)) formula
              (Environment.init sig)
       else find_model_or_equivalence (z3 world i) (current (result st)) formula
              (Environment.init sig)) = Ok (Some r) ->
      check_time (clock world i) = Ok tt ->
      enter_separation (clock world i) = Ok tt ->
      Separator.add_model r (sep st) = Returns sep1 ident ->
      Separator.separate
        (if String.prefix "+" (Model.label r)
         then p_constraints st ++ [ident] else p_constraints st)
        (if String.prefix "+" (Model.label r)
         then n_constraints st else n_constraints st ++ [ident])
        [] (max_clauses args) (max_depth args) sep1 = Returns sep2 None ->
      i < fuel ->
      learn world sig formula args fuel axioms
      = Some (Ok {| success := false;
                    current := current (result st);
                    models := models (result st) ++ [r];
                    reason := couldnt_separate |}))
  /\ (forall f sep1 mapping sep2,
      register_models (file_models f)
        (Separator.new (separator args) (file_sig f) (axioms f), ∅)
      = Returns (sep1, mapping) tt ->
      enter_separation (clock world 0) = Ok tt ->
      Separator.separate
        (a ← constraint_pos f; default [] (mapping !! a))
        (a ← constraint_neg f; default [] (mapping !! a))
        (ab ← constraint_imp f;
         x ← default [] (mapping !! ab.1); y ← default [] (mapping !! ab.2); [(x, y)])
        (max_clauses args) (max_depth args) sep1 = Returns sep2 None ->
      separate world args f
      = Ok {| success := false; current := Or [];
              models := file_models f; reason := couldnt_separate |})
  /\ couldnt_separate = "couldn't separate models under given restrictions"
  /\ couldnt_separate <> "timeout".
Proof.
  split; [|split; [|split; [reflexivity|discriminate]]].
  - intros sig formula axioms i st r sep1 ident sep2 fuel
           Hsetup Hreach H1 H2 H3 H4 H5 H6 Hfuel.
    unfold learn. rewrite Hsetup.
    replace fuel with (i + S (fuel - S i)) by lia.
    rewrite (learn_loop_reaches _ _ _ _ _ _ _ Hreach).
    destruct (iteration_no_candidate world sig formula args i st r sep1 ident sep2
                H1 H2 H3 H4 H5 H6) as (st' & Hbreak & Hres).
    simpl. rewrite Hbreak, Hres.
    rewrite (reaches_success _ _ _ _ _ _ _ Hreach). reflexivity.
  - intros f sep1 mapping sep2 Hreg Henter Hsep.
    unfold separate. rewrite Hreg, Henter, Hsep. reflexivity.
Qed.

Lemma no_candidate_ends_run_witness :
  (exists r,
      learn (Sep := nat) Examples.world_weak Examples.sig_S (And []) Examples.args_cvc4 1 []
      = Some (Ok {| success := false; current := Or []; models := [r];
                    reason := couldnt_separate |}))
  /\ (exists m,
      Examples.one_element_model = Ok m
      /\ separate (Sep := nat) Examples.world_weak Examples.args_cvc4 (Examples.file_one_model m)
         = Ok {| success := false; current := Or []; models := [m];
                 reason := couldnt_separate |}).
Proof.
  destruct (no_candidate_ends_run (Sep := nat) Examples.world_weak Examples.args_cvc4)
    as (Hlearn & Hbatch & _).
  split.
  - eexists.
    eapply (Hlearn Examples.sig_S (And []) [] 0
              (learn_start (Sep := nat) Examples.sig_S (And []) Examples.args_cvc4 [])
              _ 1 0 1 1);
      [reflexivity|constructor|reflexivity|vm_compute; reflexivity
      |reflexivity|reflexivity|reflexivity|reflexivity|lia].
  - eexists. split; [reflexivity|].
    eapply (Hbatch (Examples.file_one_model _) 1 _ 1);
      [vm_compute; reflexivity|reflexivity|reflexivity].
Defined.

(** * Further properties of the code *)

(** ** Free variables and renaming *)

(** X1: the variable of a quantifier is never among the free variables of
    the quantified formula, whatever its body. *)
Theorem free_vars_drops_bound_variable (v s : string) (f : Formula) :
  (v ∉ free_vars (Forall v s f)) /\ (v ∉ free_vars (Exists v s f)).
Proof.
  assert (H : v ∉ List.filter (fun x => negb (String.eqb x v)) (free_vars f)).
  { intros Hin. apply list_elem_of_In, List.filter_In in Hin as [_ Hne].
    rewrite String.eqb_refl in Hne. discriminate. }
  split; exact H.
Qed.

Lemma rename_free_vars_term_id (t : Term) (M : gmap string string) :
  (forall x, x ∈ free_vars_term t -> M !! x = None) ->
  rename_free_vars_term t M = t.
Proof.
  induction t as [v|f args IH] using Term_ind; intros HM; simpl.
  - rewrite (HM v); [reflexivity|]. simpl. left.
  - f_equal. induction IH as [|a args Ha _ IHargs]; simpl; [reflexivity|].
    simpl in HM. f_equal.
    + apply Ha. intros x Hx. apply HM, elem_of_app. left. exact Hx.
    + apply IHargs. intros x Hx. apply HM, elem_of_app. right. exact Hx.
Qed.

Lemma rename_free_vars_terms_id (args : list Term) (M : gmap string string) :
  (forall x, x ∈ flat_map free_vars_term args -> M !! x = None) ->
  map (fun a => rename_free_vars_term a M) args = args.
Proof.
  induction args as [|a args IH]; intros HM; simpl; [reflexivity|]. simpl in HM.
  f_equal.
  - apply rename_free_vars_term_id. intros x Hx. apply HM, elem_of_app. left. exact Hx.
  - apply IH. intros x Hx. apply HM, elem_of_app. right. exact Hx.
Qed.

Lemma free_under_binder (v x : string) (l : list string) :
  x ∈ l -> x <> v -> x ∈ List.filter (fun y => negb (String.eqb y v)) l.
Proof.
  intros Hx Hne. apply list_elem_of_In, List.filter_In. split.
  - apply list_elem_of_In, Hx.
  - apply negb_true_iff, String.eqb_neq, Hne.
Qed.

Lemma binder_mapping_misses (v : string) (g : Formula) (M : gmap string string) :
  (forall x, x ∈ List.filter (fun y => negb (String.eqb y v)) (free_vars g) ->
             M !! x = None) ->
  forall x, x ∈ free_vars g ->
            (match M !! v with
             | None => M
             | Some _ => filter (fun ab : string * string => ab.1 ≠ v) M
             end) !! x = None.
Proof.
  intros HM x Hx. destruct (decide (x = v)) as [->|Hne].
  - destruct (M !! v) eqn:E; [|exact E].
    rewrite filter_other_keys. apply lookup_delete_eq.
  - assert (Hx' := HM x (free_under_binder v x _ Hx Hne)).
    destruct (M !! v); [|exact Hx'].
    rewrite filter_other_keys, lookup_delete_ne by congruence. exact Hx'.
Qed.

(** X2: renaming changes nothing in a formula none of whose free variables
    is a key of the mapping; keys that only name bound variables, or nothing
    at all, have no effect. *)
Theorem rename_free_vars_only_free (f : Formula) (M : gmap string string) :
  (forall x, x ∈ free_vars f -> M !! x = None) ->
  rename_free_vars f M = f.
Proof.
  revert M.
  induction f as [c IH|c IH|g IH|v s g IH|v s g IH|a b|rel args] using Formula_ind;
    intros M HM; simpl in *.
  - f_equal. induction IH as [|x c Hx _ IHc]; simpl; [reflexivity|]. simpl in HM.
    f_equal.
    + apply Hx. intros y Hy. apply HM, elem_of_app. left. exact Hy.
    + apply IHc. intros y Hy. apply HM, elem_of_app. right. exact Hy.
  - f_equal. induction IH as [|x c Hx _ IHc]; simpl; [reflexivity|]. simpl in HM.
    f_equal.
    + apply Hx. intros y Hy. apply HM, elem_of_app. left. exact Hy.
    + apply IHc. intros y Hy. apply HM, elem_of_app. right. exact Hy.
  - f_equal. apply IH, HM.
  - f_equal. apply IH, binder_mapping_misses, HM.
  - f_equal. apply IH, binder_mapping_misses, HM.
  - f_equal; apply rename_free_vars_term_id; intros x Hx; apply HM, elem_of_app;
      [left|right]; exact Hx.
  - f_equal. apply rename_free_vars_terms_id, HM.
Qed.

Lemma rename_free_vars_only_free_witness :
  rename_free_vars
    (Forall "x" "S" (Relation "r" [Var "x"; Var "y"]))
    {["x" := "a"; "z" := "b"]}
  = Forall "x" "S" (Relation "r" [Var "x"; Var "y"]).
Proof.
  apply rename_free_vars_only_free. intros x Hx.
  apply list_elem_of_singleton in Hx as ->. reflexivity.
Defined.

(** X3: [notReplace] is its own inverse, and keeps the length. *)
Theorem notReplace_involutive (s : string) :
  notReplace (notReplace s) = s /\ String.length (notReplace s) = String.length s.
Proof.
  induction s as [|c s [IH1 IH2]]; simpl; [split; reflexivity|].
  rewrite IH1, IH2. split; [|reflexivity]. f_equal.
  destruct (Ascii.eqb_spec c "="%char) as [->|H1]; [reflexivity|].
  destruct (Ascii.eqb_spec c "#"%char) as [->|H2]; [reflexivity|].
  apply Ascii.eqb_neq in H1, H2. rewrite H1, H2. reflexivity.
Qed.

(** ** Signatures *)

Lemma insert_sorted_perm (x : string) (l : list string) :
  insert_sorted x l ≡ₚ x :: l.
Proof.
  induction l as [|y l IH]; simpl; [reflexivity|].
  destruct (String.leb x y); [reflexivity|].
  rewrite IH. apply Permutation_swap.
Qed.

Lemma sorted_perm (l : list string) : sorted l ≡ₚ l.
Proof.
  induction l as [|x l IH]; simpl; [reflexivity|].
  unfold sorted in *. simpl. rewrite insert_sorted_perm, IH. reflexivity.
Qed.

Lemma insert_sorted_head (x y : string) (l : list string) :
  String.leb y x = true ->
  HdRel (fun a b => String.leb a b = true) y l ->
  HdRel (fun a b => String.leb a b = true) y (insert_sorted x l).
Proof.
  intros Hyx Hl. destruct l as [|z l]; simpl.
  - constructor. exact Hyx.
  - destruct (String.leb x z); constructor; [exact Hyx|].
    inversion Hl; assumption.
Qed.

Lemma insert_sorted_ordered (x : string) (l : list string) :
  Sorted (fun a b => String.leb a b = true) l ->
  Sorted (fun a b => String.leb a b = true) (insert_sorted x l).
Proof.
  induction 1 as [|y l Hl IH Hy]; simpl.
  - repeat constructor.
  - destruct (String.leb x y) eqn:E.
    + constructor; [constructor; assumption|]. constructor. exact E.
    + constructor; [exact IH|]. apply insert_sorted_head; [|exact Hy].
      destruct (String.leb_total x y) as [H|H]; [congruence|exact H].
Qed.

Lemma sorted_ordered (l : list string) :
  Sorted (fun a b => String.leb a b = true) (sorted l).
Proof.
  induction l as [|x l IH]; [constructor|]. apply insert_sorted_ordered, IH.
Qed.

Lemma sorted_elem_of (l : list string) (x : string) : x ∈ sorted l <-> x ∈ l.
Proof. rewrite (sorted_perm l). reflexivity. Qed.

Lemma lookup_zip_seq {A : Type} (l : list A) (x : A) (i : nat) :
  (x, i) ∈ zip l (seq 0 (length l)) <-> l !! i = Some x.
Proof.
  rewrite list_elem_of_lookup. split.
  - intros [j Hj]. apply lookup_zip_Some in Hj as [Hx Hi].
    apply lookup_seq in Hi as [-> _]. exact Hx.
  - intros Hx. exists i. apply lookup_zip_Some. split; [exact Hx|].
    apply lookup_seq. split; [reflexivity|]. apply lookup_lt_Some in Hx. exact Hx.
Qed.

Lemma finalize_index (sig : Signature.t) (s : string) (i : nat) :
  Signature.sort_indices (Signature.finalize_sorts sig) !! s = Some i
  <-> Signature.sort_names (Signature.finalize_sorts sig) !! i = Some s.
Proof.
  simpl. rewrite <- lookup_zip_seq. symmetry. apply elem_of_list_to_map.
  rewrite fst_zip by (rewrite length_seq; reflexivity).
  rewrite (sorted_perm (elements (Signature.sorts sig))). apply NoDup_elements.
Qed.

Lemma finalize_sorts_index_exists (sig : Signature.t) (s : string) :
  s ∈ Signature.sorts sig ->
  exists i, Signature.sort_indices (Signature.finalize_sorts sig) !! s = Some i
            /\ i < length (Signature.sort_names (Signature.finalize_sorts sig)).
Proof.
  intros Hs.
  assert (Hin : s ∈ sorted (elements (Signature.sorts sig))).
  { apply sorted_elem_of, elem_of_elements, Hs. }
  apply list_elem_of_lookup in Hin as [i Hi].
  exists i. split; [apply finalize_index, Hi|]. apply lookup_lt_Some in Hi. exact Hi.
Qed.

(** X4: after [finalize_sorts] the sort names are the sorts of the
    signature, each once and in ascending order, and [sort_indices] maps
    each of them to its position in [sort_names] and nothing else. *)
Theorem finalize_sorts_indexes_the_sorts (sig : Signature.t) :
  (forall s, s ∈ Signature.sort_names (Signature.finalize_sorts sig)
             <-> s ∈ Signature.sorts sig)
  /\ NoDup (Signature.sort_names (Signature.finalize_sorts sig))
  /\ Sorted (fun a b => String.leb a b = true)
            (Signature.sort_names (Signature.finalize_sorts sig))
  /\ (forall s i, Signature.sort_indices (Signature.finalize_sorts sig) !! s = Some i
                  <-> Signature.sort_names (Signature.finalize_sorts sig) !! i = Some s)
  /\ (forall s, s ∈ Signature.sorts sig ->
                exists i, Signature.sort_indices (Signature.finalize_sorts sig) !! s = Some i
                          /\ i < length (Signature.sort_names (Signature.finalize_sorts sig))).
Proof.
  assert (Hnames : forall s, s ∈ sorted (elements (Signature.sorts sig))
                             <-> s ∈ Signature.sorts sig).
  { intros s. rewrite sorted_elem_of. apply elem_of_elements. }
  split; [exact Hnames|]. split.
  { simpl. rewrite (sorted_perm (elements (Signature.sorts sig))). apply NoDup_elements. }
  split; [apply sorted_ordered|]. split; [apply finalize_index|].
  apply finalize_sorts_index_exists.
Qed.

Lemma finalize_sorts_indexes_the_sorts_witness :
  exists i,
    Signature.sort_indices Examples.sig_AB !! "B" = Some i
    /\ i < length (Signature.sort_names Examples.sig_AB).
Proof.
  apply (finalize_sorts_indexes_the_sorts
           (Signature.mk {["A"; "B"]} [] ∅ ∅ {["c" := "A"]} {["f" := (["A"], "A")]})).
  simpl. set_solver.
Defined.

(** X5: no declared name is free. Every name [all_names] lists after the
    sorts were finalized, and every reserved word, is refused by
    [is_free_name]. *)
Theorem declared_names_are_not_free (sig : Signature.t) (n : string) :
  n ∈ all_names (Signature.finalize_sorts sig) \/ n ∈ reserved_names ->
  is_free_name n (Signature.finalize_sorts sig) = false.
Proof.
  unfold is_free_name, all_names. simpl.
  rewrite !elem_of_app, sorted_elem_of, !elem_of_elements, !elem_of_dom.
  intros H.
  destruct (bool_decide (n ∈ reserved_names)) eqn:E1; [reflexivity|].
  destruct (bool_decide (n ∈ Signature.sorts sig)) eqn:E2; [reflexivity|].
  destruct (bool_decide (is_Some (Signature.relations sig !! n))) eqn:E3; [reflexivity|].
  destruct (bool_decide (is_Some (Signature.constants sig !! n))) eqn:E4; [reflexivity|].
  destruct (bool_decide (is_Some (Signature.functions sig !! n))) eqn:E5; [reflexivity|].
  apply bool_decide_eq_false in E1, E2, E3, E4, E5. exfalso. tauto.
Qed.

Lemma declared_names_are_not_free_witness :
  is_free_name "f" Examples.sig_AB = false
  /\ is_free_name "forall" Examples.sig_AB = false
  /\ is_free_name "g" Examples.sig_AB = true.
Proof.
  split; [|split].
  - apply (declared_names_are_not_free
             (Signature.mk {["A"; "B"]} [] ∅ ∅ {["c" := "A"]} {["f" := (["A"], "A")]})).
    left. vm_compute. do 3 right. left.
  - apply (declared_names_are_not_free
             (Signature.mk {["A"; "B"]} [] ∅ ∅ {["c" := "A"]} {["f" := (["A"], "A")]})).
    right. unfold reserved_names. set_solver.
  - vm_compute. reflexivity.
Defined.

(** ** Models *)

Lemma model_wf_init (sig : Signature.t) : model_wf (Model.init sig).
Proof.
  unfold model_wf, Model.universe; simpl. split; [reflexivity|]. split.
  - intros name i. rewrite lookup_empty, lookup_nil. split; discriminate.
  - split.
    + intros s i. rewrite lookup_empty, lookup_nil. simpl. split; [|discriminate].
      intros H. inversion H.
    + apply length_replicate.
Qed.

Lemma universe_after_add (m : Model.t) (sort s : string) (l : list nat) :
  default [] (<[sort := l]> (Model.elems_of_sort m) !! s)
  = if decide (sort = s) then l else Model.universe m s.
Proof.
  unfold Model.universe. destruct (decide (sort = s)) as [->|Hne].
  - rewrite lookup_insert_eq. reflexivity.
  - rewrite lookup_insert_ne by exact Hne. reflexivity.
Qed.

Lemma add_elem_wf (name sort : string) (m m' : Model.t) (v : PyVal) :
  model_wf m -> Model.add_elem name sort m = Returns m' v -> model_wf m'.
Proof.
  intros Hwf. pose proof Hwf as (Hlen & Hid & Hsort & Hrows). unfold Model.add_elem.
  destruct (Model.elems m !! name) eqn:Hfresh.
  { intros [= <- _]. exact Hwf. }
  destruct (Signature.sort_indices (Model.sig m) !! sort) as [i|]; [|discriminate].
  destruct (Model.elems_of_sort_index m !! i) as [row|]; [|discriminate].
  intros [= <- _]. unfold model_wf, Model.universe; simpl.
  split; [rewrite !length_app, Hlen; reflexivity|]. split; [|split].
  - intros name' j. destruct (decide (name = name')) as [<-|Hne].
    + rewrite lookup_insert_eq. split.
      * intros [= <-]. rewrite lookup_app_r, Nat.sub_diag by lia. reflexivity.
      * intros Hj. f_equal. destruct (decide (j < length (Model.names m))) as [Hlt|Hge].
        -- rewrite lookup_app_l in Hj by exact Hlt. apply Hid in Hj. congruence.
        -- apply lookup_lt_Some in Hj as Hj'. rewrite length_app in Hj'. simpl in Hj'. lia.
    + rewrite lookup_insert_ne by exact Hne. rewrite Hid. split.
      * intros Hj. rewrite lookup_app_l; [exact Hj|]. apply lookup_lt_Some in Hj. exact Hj.
      * intros Hj. destruct (decide (j < length (Model.names m))) as [Hlt|Hge].
        -- rewrite lookup_app_l in Hj by exact Hlt. exact Hj.
        -- rewrite lookup_app_r in Hj by lia.
           destruct (j - length (Model.names m)) as [|k]; simpl in Hj; [|discriminate].
           congruence.
  - intros s j. rewrite universe_after_add. destruct (decide (sort = s)) as [<-|Hne].
    + change (default [] (Model.elems_of_sort m !! sort)) with (Model.universe m sort).
      rewrite elem_of_app, list_elem_of_singleton, Hsort. split.
      * intros [Hj| ->].
        -- rewrite lookup_app_l; [exact Hj|]. apply lookup_lt_Some in Hj. exact Hj.
        -- rewrite Hlen, lookup_app_r, Nat.sub_diag by lia. reflexivity.
      * intros Hj. destruct (decide (j < length (Model.sorts m))) as [Hlt|Hge].
        -- left. rewrite lookup_app_l in Hj by exact Hlt. exact Hj.
        -- right. apply lookup_lt_Some in Hj as Hj'. rewrite length_app in Hj'.
           simpl in Hj'. lia.
    + rewrite Hsort. split.
      * intros Hj. rewrite lookup_app_l; [exact Hj|]. apply lookup_lt_Some in Hj. exact Hj.
      * intros Hj. destruct (decide (j < length (Model.sorts m))) as [Hlt|Hge].
        -- rewrite lookup_app_l in Hj by exact Hlt. exact Hj.
        -- rewrite lookup_app_r in Hj by lia.
           destruct (j - length (Model.sorts m)) as [|k]; simpl in Hj; [|discriminate].
           congruence.
  - rewrite length_insert. exact Hrows.
Qed.

Lemma add_constant_wf (name elem : string) (m m' : Model.t) (v : PyVal) :
  model_wf m -> Model.add_constant name elem m = Returns m' v -> model_wf m'.
Proof.
  intros Hwf. unfold Model.add_constant.
  destruct (Model.constants m !! name); [intros [= <- _]; exact Hwf|].
  destruct (Model.elems m !! elem); [|discriminate]. intros [= <- _]. exact Hwf.
Qed.

Lemma add_relation_wf (rel : string) (args : list string) (m m' : Model.t) (v : PyVal) :
  model_wf m -> Model.add_relation rel args m = Returns m' v -> model_wf m'.
Proof.
  intros Hwf. unfold Model.add_relation.
  destruct (Model.relations m !! rel); [|discriminate].
  destruct (Model.elems_tuple m args); [|discriminate]. intros [= <- _]. exact Hwf.
Qed.

Lemma add_function_wf (func : string) (args : list string) (result : string)
    (m m' : Model.t) (v : PyVal) :
  model_wf m -> Model.add_function func args result m = Returns m' v -> model_wf m'.
Proof.
  intros Hwf. unfold Model.add_function.
  destruct (Model.elems m !! result); [|discriminate].
  destruct (Model.functions m !! func); [|discriminate].
  destruct (Model.elems_tuple m args); [|discriminate]. intros [= <- _]. exact Hwf.
Qed.

Lemma add_operations_keep_model_shape_parts :
  (forall sig, model_wf (Model.init sig))
  /\ (forall name sort m m' v,
        model_wf m -> Model.add_elem name sort m = Returns m' v -> model_wf m')
  /\ (forall name elem m m' v,
        model_wf m -> Model.add_constant name elem m = Returns m' v -> model_wf m')
  /\ (forall func args result m m' v,
        model_wf m -> Model.add_function func args result m = Returns m' v -> model_wf m').
Proof.
  split; [exact model_wf_init|]. split; [exact add_elem_wf|].
  split; [exact add_constant_wf|exact add_function_wf].
Qed.

(** X6: a fresh Model has, and every add operation that returns keeps, the
    shape of the element tables: identifiers are the positions in [names],
    no name occurs twice, [sorts] runs parallel to [names], the defaultdict
    lists exactly the identifiers of each sort, and the index rows are as
    many as the sort names of the signature. *)
Theorem add_operations_keep_model_shape :
  (forall sig, model_wf (Model.init sig))
  /\ (forall name sort m m' v,
        model_wf m -> Model.add_elem name sort m = Returns m' v -> model_wf m')
  /\ (forall name elem m m' v,
        model_wf m -> Model.add_constant name elem m = Returns m' v -> model_wf m')
  /\ (forall rel args m m' v,
        model_wf m -> Model.add_relation rel args m = Returns m' v -> model_wf m')
  /\ (forall func args result m m' v,
        model_wf m -> Model.add_function func args result m = Returns m' v -> model_wf m').
Proof.
  split; [exact model_wf_init|]. split; [exact add_elem_wf|].
  split; [exact add_constant_wf|]. split; [exact add_relation_wf|exact add_function_wf].
Qed.

Lemma add_operations_keep_model_shape_witness :
  model_wf (state_of (Model.add_elem "b0" "B"
              (state_of (Model.add_elem "a0" "A" (Model.init Examples.sig_AB))))).
Proof.
  destruct add_operations_keep_model_shape as (Hinit & Helem & _).
  pose (m1 := state_of (Model.add_elem "a0" "A" (Model.init Examples.sig_AB))).
  apply (Helem "b0" "B" m1 _ (PyBool true)); [|vm_compute; reflexivity].
  apply (Helem "a0" "A" (Model.init Examples.sig_AB) _ (PyBool true));
    [apply Hinit|vm_compute; reflexivity].
Defined.

(** X7: on a Model over a signature whose sorts were finalized, adding an
    element of a declared sort under a name not yet used never raises: it
    returns [True], gives the element the next identifier, and afterwards
    [sort_of] answers the sort and the universe of the sort ends with the
    new element. *)
Theorem add_elem_of_declared_sort (sig : Signature.t) (m : Model.t) (name sort : string) :
  Model.sig m = Signature.finalize_sorts sig ->
  model_wf m ->
  sort ∈ Signature.sorts sig ->
  Model.elems m !! name = None ->
  exists m',
    Model.add_elem name sort m = Returns m' (PyBool true)
    /\ Model.elems m' !! name = Some (length (Model.names m))
    /\ Model.names m' = Model.names m ++ [name]
    /\ Model.sort_of name m' = Ok (Some sort)
    /\ Model.universe m' sort = Model.universe m sort ++ [length (Model.names m)].
Proof.
  intros Hsig (Hlen & Hid & Hsort & Hrows) Hdecl Hfresh.
  destruct (finalize_sorts_index_exists sig sort Hdecl) as (i & Hi & Hlt).
  unfold Model.add_elem. rewrite Hfresh, Hsig, Hi.
  destruct (Model.elems_of_sort_index m !! i) as [row|] eqn:Hrow.
  2: { apply lookup_ge_None in Hrow. rewrite Hrows, Hsig in Hrow. lia. }
  eexists. split; [reflexivity|]. unfold Model.sort_of, Model.universe. simpl.
  rewrite !lookup_insert_eq. split; [reflexivity|]. split; [reflexivity|].
  rewrite Hlen, lookup_app_r, Nat.sub_diag by lia. split; reflexivity.
Qed.

Lemma add_elem_of_declared_sort_witness :
  exists m',
    Model.add_elem "b0" "B" (state_of (Model.add_elem "a0" "A" (Model.init Examples.sig_AB)))
    = Returns m' (PyBool true)
    /\ Model.sort_of "b0" m' = Ok (Some "B")
    /\ Model.elems m' !! "b0" = Some 1.
Proof.
  destruct add_operations_keep_model_shape_parts as (Hinit & Helem & _).
  destruct (add_elem_of_declared_sort
              (Signature.mk {["A"; "B"]} [] ∅ ∅ {["c" := "A"]} {["f" := (["A"], "A")]})
              (state_of (Model.add_elem "a0" "A" (Model.init Examples.sig_AB)))
              "b0" "B") as (m' & Hadd & Hid & _ & Hsort & _).
  - reflexivity.
  - apply (Helem "a0" "A" (Model.init Examples.sig_AB) _ (PyBool true));
      [apply Hinit|vm_compute; reflexivity].
  - set_solver.
  - reflexivity.
  - exists m'. split; [exact Hadd|]. split; [exact Hsort|exact Hid].
Defined.

(** X8: when [add_elem] raises because its sort has no index in the
    signature, the element is already half registered: the name is taken
    and its identifier is listed under the sort, but [names] and [sorts] are
    as before; adding the same name again reports a duplicate. *)
Theorem add_elem_failure_keeps_the_name (m : Model.t) (name sort : string) :
  Model.elems m !! name = None ->
  Signature.sort_indices (Model.sig m) !! sort = None ->
  exists m1,
    Model.add_elem name sort m = Raises m1 (KeyError sort)
    /\ Model.elems m1 !! name = Some (length (Model.names m))
    /\ Model.universe m1 sort = Model.universe m sort ++ [length (Model.names m)]
    /\ Model.names m1 = Model.names m
    /\ Model.sorts m1 = Model.sorts m
    /\ Model.add_elem name sort m1 = Returns m1 (PyBool false).
Proof.
  intros Hfresh Hsort. unfold Model.add_elem at 1. rewrite Hfresh, Hsort.
  eexists. split; [reflexivity|]. unfold Model.universe, Model.add_elem. simpl.
  rewrite !lookup_insert_eq. repeat split; reflexivity.
Qed.

Lemma add_elem_failure_keeps_the_name_witness :
  exists m1,
    Model.add_elem "e" "S" (Model.init (Signature.mk {["S"]} [] ∅ ∅ ∅ ∅))
    = Raises m1 (KeyError "S")
    /\ Model.add_elem "e" "S" m1 = Returns m1 (PyBool false).
Proof.
  destruct (add_elem_failure_keeps_the_name
              (Model.init (Signature.mk {["S"]} [] ∅ ∅ ∅ ∅)) "e" "S")
    as (m1 & H1 & _ & _ & _ & _ & H2); [reflexivity|reflexivity|].
  exists m1. split; assumption.
Defined.

(** X9: after [add_function] returns, an application of the function to
    arguments that resolve to the elements named in [args] resolves to the
    element named [result], whatever was stored for that tuple before; every
    other table entry is as it was. *)
Theorem add_function_then_resolve (func : string) (args : list string) (result : string)
    (m m' : Model.t) (v : PyVal) :
  Model.add_function func args result m = Returns m' v ->
  exists tup r,
    Model.elems_tuple m args = Ok tup
    /\ Model.elems m !! result = Some r
    /\ (forall A ts,
          list_comprehension (fun a => resolve_term a m' A) ts = Ok tup ->
          resolve_term (Func func ts) m' A = Ok r)
    /\ (forall f' t',
          (f', t') <> (func, tup) ->
          (Model.functions m' !! f') ≫= (fun repr => repr !! t')
          = (Model.functions m !! f') ≫= (fun repr => repr !! t')).
Proof.
  unfold Model.add_function.
  destruct (Model.elems m !! result) as [r|]; [|discriminate].
  destruct (Model.functions m !! func) as [repr|] eqn:Hrepr; [|discriminate].
  destruct (Model.elems_tuple m args) as [tup|]; [|discriminate].
  intros [= <- _]. exists tup, r. split; [reflexivity|]. split; [reflexivity|]. split.
  - intros A ts Hts. simpl. rewrite lookup_insert_eq, Hts, lookup_insert_eq. reflexivity.
  - intros f' t' Hne. simpl. destruct (decide (func = f')) as [<-|Hf].
    + rewrite lookup_insert_eq, Hrepr. simpl.
      rewrite lookup_insert_ne; [reflexivity|]. congruence.
    + rewrite lookup_insert_ne by exact Hf. reflexivity.
Qed.

Lemma add_function_then_resolve_witness :
  exists m, Examples.well_sorted_model = Ok m
            /\ resolve_term (Func "f" [Var "c"]) m ∅ = Ok 0.
Proof.
  eexists. split; [reflexivity|].
  destruct (add_function_then_resolve "f" ["a0"] "a0"
              (state_of (Model.add_constant "c" "a0"
                 (state_of (Model.add_elem "b0" "B"
                    (state_of (Model.add_elem "a0" "A" (Model.init Examples.sig_AB)))))))
              _ PyNone eq_refl) as (tup & r & Htup & Hr & Hres & _).
  injection Htup as <-. injection Hr as <-. apply Hres. reflexivity.
Defined.

(** X10: after [add_relation] returns, the evaluator finds the relation
    true of arguments that resolve to the elements named in [args], and
    every tuple that was in the relation is still in it. *)
Theorem add_relation_then_check (rel : string) (args : list string)
    (m m' : Model.t) (v : PyVal) :
  Model.add_relation rel args m = Returns m' v ->
  exists tup,
    Model.elems_tuple m args = Ok tup
    /\ (forall A ts,
          list_comprehension (fun t => resolve_term t m' A) ts = Ok tup ->
          check (Relation rel ts) m' A = Ok true)
    /\ (forall tuples t, Model.relations m !! rel = Some tuples -> t ∈ tuples ->
          exists tuples', Model.relations m' !! rel = Some tuples' /\ t ∈ tuples').
Proof.
  unfold Model.add_relation.
  destruct (Model.relations m !! rel) as [tuples|] eqn:Hrel; [|discriminate].
  destruct (Model.elems_tuple m args) as [tup|]; [|discriminate].
  intros [= <- _]. exists tup. split; [reflexivity|]. split.
  - intros A ts Hts. simpl. rewrite Hts. simpl. rewrite lookup_insert_eq.
    rewrite bool_decide_eq_true_2; [reflexivity|]. set_solver.
  - intros tuples0 t [= <-] Ht. simpl. rewrite lookup_insert_eq.
    eexists. split; [reflexivity|]. set_solver.
Qed.

Lemma add_relation_then_check_witness :
  check (Relation "P" [Var "k"])
        (state_of (Model.add_relation "P" ["e"]
           (state_of (Model.add_elem "e" "S" (Model.init Examples.sig_P)))))
        {["k" := 0]} = Ok true.
Proof.
  pose (m0 := state_of (Model.add_elem "e" "S" (Model.init Examples.sig_P))).
  pose (m1 := state_of (Model.add_relation "P" ["e"] m0)).
  assert (Hadd : Model.add_relation "P" ["e"] m0 = Returns m1 PyNone)
    by (vm_compute; reflexivity).
  destruct (add_relation_then_check "P" ["e"] m0 m1 PyNone Hadd) as (tup & Htup & Hcheck & _).
  vm_compute in Htup. injection Htup as <-.
  apply (Hcheck {["k" := 0]} [Var "k"]). vm_compute. reflexivity.
Defined.

(** X11: [add_constant] keeps the first assignment.  When it returns [True]
    the constant resolves to the element named; when it returns [False] the
    Model is unchanged and the constant resolves as before. *)
Theorem add_constant_then_resolve (name elem : string) (m m' : Model.t) (b : bool)
    (A : gmap string nat) :
  Model.add_constant name elem m = Returns m' (PyBool b) ->
  A !! name = None ->
  (b = true ->
     exists e, Model.elems m !! elem = Some e /\ resolve_term (Var name) m' A = Ok e)
  /\ (b = false ->
     m' = m /\ exists e, Model.constants m !! name = Some e
                         /\ resolve_term (Var name) m' A = Ok e).
Proof.
  unfold Model.add_constant. intros H HA.
  destruct (Model.constants m !! name) as [e0|] eqn:Hc.
  - injection H as <- <-. split; [discriminate|]. intros _. split; [reflexivity|].
    exists e0. simpl. rewrite HA, Hc. split; reflexivity.
  - destruct (Model.elems m !! elem) as [e|]; [|discriminate].
    injection H as <- <-. split; [|discriminate]. intros _.
    exists e. simpl. rewrite HA, lookup_insert_eq. split; reflexivity.
Qed.

Lemma add_constant_then_resolve_witness :
  resolve_term (Var "c")
    (state_of (Model.add_constant "c" "b0"
       (state_of (Model.add_constant "c" "a0"
          (state_of (Model.add_elem "b0" "B"
             (state_of (Model.add_elem "a0" "A" (Model.init Examples.sig_AB)))))))))
    ∅ = Ok 0.
Proof.
  pose (m0 := state_of (Model.add_constant "c" "a0"
                (state_of (Model.add_elem "b0" "B"
                   (state_of (Model.add_elem "a0" "A" (Model.init Examples.sig_AB))))))).
  pose (m1 := state_of (Model.add_constant "c" "b0" m0)).
  assert (Hadd : Model.add_constant "c" "b0" m0 = Returns m1 (PyBool false))
    by (vm_compute; reflexivity).
  destruct (add_constant_then_resolve "c" "b0" m0 m1 false ∅ Hadd (lookup_empty _))
    as [_ Hdup].
  destruct (Hdup eq_refl) as (_ & e & He & Hres).
  vm_compute in He. injection He as <-. exact Hres.
Defined.

(** ** More on the evaluator *)

Lemma list_comprehension_ext {A B : Type} (p q : A -> Res B) (l : list A) :
  (forall x, x ∈ l -> p x = q x) -> list_comprehension p l = list_comprehension q l.
Proof.
  induction l as [|x l IH]; intros H; simpl; [reflexivity|].
  rewrite (H x) by left. rewrite IH; [reflexivity|].
  intros y Hy. apply H. right. exact Hy.
Qed.

Lemma loop_all_ext {A : Type} (p q : A -> Res bool) (l : list A) :
  (forall x, x ∈ l -> p x = q x) -> loop_all p l = loop_all q l.
Proof.
  induction l as [|x l IH]; intros H; simpl; [reflexivity|].
  rewrite (H x) by left. rewrite IH; [reflexivity|].
  intros y Hy. apply H. right. exact Hy.
Qed.

Lemma loop_any_ext {A : Type} (p q : A -> Res bool) (l : list A) :
  (forall x, x ∈ l -> p x = q x) -> loop_any p l = loop_any q l.
Proof.
  induction l as [|x l IH]; intros H; simpl; [reflexivity|].
  rewrite (H x) by left. rewrite IH; [reflexivity|].
  intros y Hy. apply H. right. exact Hy.
Qed.

Lemma elem_of_flat_map_intro {A B : Type} (g : A -> list B) (l : list A) (a : A) (b : B) :
  a ∈ l -> b ∈ g a -> b ∈ flat_map g l.
Proof.
  intros Ha Hb. apply list_elem_of_In, in_flat_map. exists a.
  split; apply list_elem_of_In; assumption.
Qed.

Lemma resolve_term_coincide (t : Term) (m : Model.t) (A A' : gmap string nat) :
  (forall x, x ∈ free_vars_term t -> A !! x = A' !! x) ->
  resolve_term t m A = resolve_term t m A'.
Proof.
  induction t as [v|f args IH] using Term_ind; intros H; simpl.
  - rewrite (H v); [reflexivity|]. simpl. left.
  - destruct (Model.functions m !! f); [|reflexivity].
    rewrite (list_comprehension_ext (fun a => resolve_term a m A)
               (fun a => resolve_term a m A') args); [reflexivity|].
    intros a Ha. rewrite List.Forall_forall in IH.
    apply IH; [apply list_elem_of_In, Ha|].
    intros x Hx. apply H. simpl. eapply elem_of_flat_map_intro; eassumption.
Qed.

(** X12: the evaluator reads the assumption map only at the free variables
    of the formula: two assumption maps that agree there give the same
    result, be it a boolean or an exception. *)
Theorem check_reads_free_variables_only (f : Formula) (m : Model.t)
    (A A' : gmap string nat) :
  (forall x, x ∈ free_vars f -> A !! x = A' !! x) ->
  check f m A = check f m A'.
Proof.
  revert A A'.
  induction f as [c IH|c IH|g IH|v s g IH|v s g IH|a b|rel args] using Formula_ind;
    intros A A' H; simpl in *.
  - apply loop_all_ext. intros x Hx. rewrite List.Forall_forall in IH.
    apply IH; [apply list_elem_of_In, Hx|].
    intros y Hy. apply H. eapply elem_of_flat_map_intro; eassumption.
  - apply loop_any_ext. intros x Hx. rewrite List.Forall_forall in IH.
    apply IH; [apply list_elem_of_In, Hx|].
    intros y Hy. apply H. eapply elem_of_flat_map_intro; eassumption.
  - rewrite (IH A A' H). reflexivity.
  - apply loop_any_ext. intros e _. apply IH. intros x Hx.
    destruct (decide (v = x)) as [->|Hne].
    + rewrite !lookup_insert_eq. reflexivity.
    + rewrite !lookup_insert_ne by exact Hne. apply H, free_under_binder; congruence.
  - apply loop_all_ext. intros e _. apply IH. intros x Hx.
    destruct (decide (v = x)) as [->|Hne].
    + rewrite !lookup_insert_eq. reflexivity.
    + rewrite !lookup_insert_ne by exact Hne. apply H, free_under_binder; congruence.
  - rewrite (resolve_term_coincide a m A A'), (resolve_term_coincide b m A A');
      [reflexivity| |]; intros x Hx; apply H, elem_of_app; [right|left]; exact Hx.
  - rewrite (list_comprehension_ext (fun t => resolve_term t m A)
               (fun t => resolve_term t m A') args); [reflexivity|].
    intros t Ht. apply resolve_term_coincide.
    intros x Hx. apply H. eapply elem_of_flat_map_intro; eassumption.
Qed.

Lemma check_reads_free_variables_only_witness :
  check (Forall "x" "S" (Relation "P" [Var "x"]))
        (Model.init Examples.sig_P) {["x" := 7; "y" := 3]}
  = check (Forall "x" "S" (Relation "P" [Var "x"])) (Model.init Examples.sig_P) ∅.
Proof.
  apply check_reads_free_variables_only.
  intros x Hx. vm_compute in Hx. inversion Hx.
Defined.

Lemma loop_any_map {A B : Type} (p : B -> Res bool) (g : A -> B) (l : list A) :
  loop_any p (map g l) = loop_any (fun x => p (g x)) l.
Proof.
  induction l as [|x l IH]; simpl; [reflexivity|]. rewrite IH. reflexivity.
Qed.

Lemma loop_all_map {A B : Type} (p : B -> Res bool) (g : A -> B) (l : list A) :
  loop_all p (map g l) = loop_all (fun x => p (g x)) l.
Proof.
  induction l as [|x l IH]; simpl; [reflexivity|]. rewrite IH. reflexivity.
Qed.

Lemma negb_negb_res (r : Res bool) : negb <$> (negb <$> r) = r.
Proof. destruct r as [[|]|]; reflexivity. Qed.

Lemma loop_any_all {A : Type} (p : A -> Res bool) (l : list A) :
  loop_any p l = negb <$> loop_all (fun x => negb <$> p x) l.
Proof.
  induction l as [|x l IH]; simpl; [reflexivity|].
  destruct (p x) as [[|]|e]; simpl; auto.
Qed.

(** X13: De Morgan and double negation hold for the evaluator as equations
    of results: negating a conjunction is the disjunction of the negated
    conjuncts, negating a disjunction is the conjunction of the negated
    disjuncts, and a double negation evaluates as the formula itself; an
    exception on one side is the same exception on the other. *)
Theorem check_de_morgan (c : list Formula) (f : Formula) (m : Model.t)
    (A : gmap string nat) :
  check (Not (And c)) m A = check (Or (map Not c)) m A
  /\ check (Not (Or c)) m A = check (And (map Not c)) m A
  /\ check (Not (Not f)) m A = check f m A.
Proof.
  split; [|split].
  - change (negb <$> loop_all (fun g => check g m A) c
            = loop_any (fun g => check g m A) (map Not c)).
    rewrite loop_any_map. simpl. rewrite loop_any_all.
    f_equal. apply loop_all_ext. intros x _. symmetry. apply negb_negb_res.
  - change (negb <$> loop_any (fun g => check g m A) c
            = loop_all (fun g => check g m A) (map Not c)).
    rewrite loop_all_map. simpl. rewrite loop_all_any.
    f_equal. apply loop_any_ext. intros x _. symmetry. apply negb_negb_res.
  - simpl. apply negb_negb_res.
Qed.

Lemma loop_all_true {A : Type} (p : A -> Res bool) (l : list A) :
  loop_all p l = Ok true <-> forall x, x ∈ l -> p x = Ok true.
Proof.
  induction l as [|x l IH]; simpl.
  - split; [intros _ y Hy; inversion Hy|reflexivity].
  - split.
    + intros H y Hy. destruct (p x) as [[|]|] eqn:E; try discriminate.
      apply elem_of_cons in Hy as [->|Hy]; [exact E|]. apply IH; assumption.
    + intros H. rewrite (H x) by left. apply IH. intros y Hy. apply H. right. exact Hy.
Qed.

Lemma loop_any_false {A : Type} (p : A -> Res bool) (l : list A) :
  loop_any p l = Ok false <-> forall x, x ∈ l -> p x = Ok false.
Proof.
  induction l as [|x l IH]; simpl.
  - split; [intros _ y Hy; inversion Hy|reflexivity].
  - split.
    + intros H y Hy. destruct (p x) as [[|]|] eqn:E; try discriminate.
      apply elem_of_cons in Hy as [->|Hy]; [exact E|]. apply IH; assumption.
    + intros H. rewrite (H x) by left. apply IH. intros y Hy. apply H. right. exact Hy.
Qed.

Lemma loop_any_true {A : Type} (p : A -> Res bool) (l : list A) :
  loop_any p l = Ok true <->
  exists l1 x l2, l = l1 ++ x :: l2 /\ p x = Ok true /\ forall y, y ∈ l1 -> p y = Ok false.
Proof.
  induction l as [|x l IH]; simpl.
  - split; [discriminate|]. intros (l1 & x & l2 & H & _). destruct l1; discriminate.
  - split.
    + intros H. destruct (p x) as [[|]|] eqn:E; try discriminate.
      * exists [], x, l. split; [reflexivity|]. split; [exact E|].
        intros y Hy. inversion Hy.
      * apply IH in H as (l1 & y & l2 & -> & Hy & Hl1).
        exists (x :: l1), y, l2. split; [reflexivity|]. split; [exact Hy|].
        intros z Hz. apply elem_of_cons in Hz as [->|Hz]; [exact E|]. apply Hl1, Hz.
    + intros (l1 & y & l2 & Heq & Hy & Hl1). destruct l1 as [|z l1]; simpl in Heq.
      * injection Heq as <- <-. rewrite Hy. reflexivity.
      * injection Heq as <- ->. rewrite (Hl1 x) by left. apply IH.
        exists l1, y, l2. split; [reflexivity|]. split; [exact Hy|].
        intros w Hw. apply Hl1. right. exact Hw.
Qed.

Lemma loop_all_false {A : Type} (p : A -> Res bool) (l : list A) :
  loop_all p l = Ok false <->
  exists l1 x l2, l = l1 ++ x :: l2 /\ p x = Ok false /\ forall y, y ∈ l1 -> p y = Ok true.
Proof.
  induction l as [|x l IH]; simpl.
  - split; [discriminate|]. intros (l1 & x & l2 & H & _). destruct l1; discriminate.
  - split.
    + intros H. destruct (p x) as [[|]|] eqn:E; try discriminate.
      * apply IH in H as (l1 & y & l2 & -> & Hy & Hl1).
        exists (x :: l1), y, l2. split; [reflexivity|]. split; [exact Hy|].
        intros z Hz. apply elem_of_cons in Hz as [->|Hz]; [exact E|]. apply Hl1, Hz.
      * exists [], x, l. split; [reflexivity|]. split; [exact E|].
        intros y Hy. inversion Hy.
    + intros (l1 & y & l2 & Heq & Hy & Hl1). destruct l1 as [|z l1]; simpl in Heq.
      * injection Heq as <- <-. rewrite Hy. reflexivity.
      * injection Heq as <- ->. rewrite (Hl1 x) by left. apply IH.
        exists l1, y, l2. split; [reflexivity|]. split; [exact Hy|].
        intros w Hw. apply Hl1. right. exact Hw.
Qed.

(** X14: what the quantifiers mean to the evaluator.  [Forall] is true
    exactly when the body is true of every element of the sort, and false
    exactly when the body is false of some element and true of all elements
    enumerated before it; [Exists] is false exactly when the body is false
    of every element, and true exactly when it is true of some element and
    false of all elements enumerated before it.  Elements after the
    deciding one are not evaluated. *)
Theorem check_quantifier_meaning (v s : string) (f : Formula) (m : Model.t)
    (A : gmap string nat) :
  (check (Forall v s f) m A = Ok true
   <-> forall e, e ∈ Model.universe m s -> check f m (<[v := e]> A) = Ok true)
  /\ (check (Forall v s f) m A = Ok false
      <-> exists l1 e l2, Model.universe m s = l1 ++ e :: l2
            /\ check f m (<[v := e]> A) = Ok false
            /\ forall e', e' ∈ l1 -> check f m (<[v := e']> A) = Ok true)
  /\ (check (Exists v s f) m A = Ok false
      <-> forall e, e ∈ Model.universe m s -> check f m (<[v := e]> A) = Ok false)
  /\ (check (Exists v s f) m A = Ok true
      <-> exists l1 e l2, Model.universe m s = l1 ++ e :: l2
            /\ check f m (<[v := e]> A) = Ok true
            /\ forall e', e' ∈ l1 -> check f m (<[v := e']> A) = Ok false).
Proof.
  simpl. split; [apply loop_all_true|]. split; [apply loop_all_false|].
  split; [apply loop_any_false|apply loop_any_true].
Qed.

Lemma loop_all_app {A : Type} (p : A -> Res bool) (l1 l2 : list A) :
  loop_all p (l1 ++ l2)
  = b ← loop_all p l1; if b : bool then loop_all p l2 else Ok false.
Proof.
  induction l1 as [|x l1 IH]; simpl; [reflexivity|].
  destruct (p x) as [[|]|]; simpl; [exact IH|reflexivity|reflexivity].
Qed.

Lemma loop_any_app {A : Type} (p : A -> Res bool) (l1 l2 : list A) :
  loop_any p (l1 ++ l2)
  = b ← loop_any p l1; if b : bool then Ok true else loop_any p l2.
Proof.
  induction l1 as [|x l1 IH]; simpl; [reflexivity|].
  destruct (p x) as [[|]|]; simpl; [reflexivity|exact IH|reflexivity].
Qed.

(** X15: conjunction and disjunction evaluate from left to right and stop
    at the deciding operand: a conjunction of two lists is the conjunction
    of the first followed, only if that is true, by the conjunction of the
    second, and dually for a disjunction; what comes after a false conjunct
    or a true disjunct is not evaluated and cannot raise. *)
Theorem check_and_or_append (c1 c2 : list Formula) (m : Model.t) (A : gmap string nat) :
  check (And (c1 ++ c2)) m A
  = (b ← check (And c1) m A; if b : bool then check (And c2) m A else Ok false)
  /\ check (Or (c1 ++ c2)) m A
     = (b ← check (Or c1) m A; if b : bool then Ok true else check (Or c2) m A).
Proof. split; [apply loop_all_app|apply loop_any_app]. Qed.

(** ** More on the solver bridge *)

Lemma solve_with_cvc4_cases parse_model res sig r (om : option Model.t) :
  solve_with_cvc4 parse_model res sig = Ok (r, om) ->
  (r = sat /\ exists rest M, res = CompletedProcess 0 ("sat" :: rest)
                            /\ parse_model sig rest = Ok M /\ om = Some M)
  \/ (r = unsat /\ om = None /\ exists rest, res = CompletedProcess 0 ("unsat" :: rest))
  \/ (r = unknown /\ om = None).
Proof.
  unfold solve_with_cvc4. destruct res as [|rc lines].
  { intros [= <- <-]. right. right. split; reflexivity. }
  destruct (Z.eqb_spec rc 0) as [->|Hrc].
  2: { intros [= <- <-]. right. right. split; reflexivity. }
  destruct lines as [|line0 rest]; [discriminate|].
  destruct (String.eqb_spec line0 "unsat") as [->|H1].
  { intros [= <- <-]. right. left. split; [reflexivity|]. split; [reflexivity|]. eauto. }
  destruct (String.eqb_spec line0 "unknown") as [->|H2].
  { intros [= <- <-]. right. right. split; reflexivity. }
  destruct (String.eqb_spec line0 "sat") as [->|H3]; [|discriminate].
  destruct (parse_model sig rest) as [M|] eqn:HM; [|discriminate].
  simpl. intros [= <- <-]. left. split; [reflexivity|]. exists rest, M. auto.
Qed.

(** X16: [solve_with_cvc4] hands back a model exactly with the answer
    [sat]: a result with a model is [sat], comes from return code zero and
    the first line [sat], and the model is what [_parse_model] made of the
    remaining lines; a result without a model is [unsat] or [unknown]. *)
Theorem solve_with_cvc4_model_iff_sat
    (parse_model : Signature.t -> list string -> Res Model.t)
    (res : SubprocessResult) (sig : Signature.t) (r : CheckSatResult)
    (om : option Model.t) :
  solve_with_cvc4 parse_model res sig = Ok (r, om) ->
  (r = sat <-> is_Some om)
  /\ (forall M, om = Some M ->
        exists rest, res = CompletedProcess 0 ("sat" :: rest)
                     /\ parse_model sig rest = Ok M).
Proof.
  intros H. apply solve_with_cvc4_cases in H
    as [(-> & rest & M & -> & HM & ->)|[(-> & -> & _)|(-> & ->)]].
  - split; [split; eauto|]. intros M' [= <-]. eauto.
  - split; [split; [discriminate|intros [? ?]; discriminate]|discriminate].
  - split; [split; [discriminate|intros [? ?]; discriminate]|discriminate].
Qed.

Lemma solve_with_cvc4_model_iff_sat_witness :
  exists M rest,
    CompletedProcess 0 ["sat"; "(model)"] = CompletedProcess 0 ("sat" :: rest)
    /\ Examples.parse_one_element Examples.sig_S rest = Ok M.
Proof.
  destruct (solve_with_cvc4_model_iff_sat Examples.parse_one_element
              (CompletedProcess 0 ["sat"; "(model)"]) Examples.sig_S sat
              (Some (state_of (Model.add_elem "e" "S" (Model.init Examples.sig_S))))
              eq_refl) as [_ H].
  destruct (H _ eq_refl) as (rest & H1 & H2). eauto.
Defined.

Lemma minimize_never_none solver a b sig label (n k : nat) :
  minimize solver a b sig label n k <> Ok None.
Proof.
  revert k. induction n as [|n IH]; intros k; simpl; [discriminate|].
  destruct (fm solver a b (Some k)) as [[r [mref|]]|]; simpl; [| |discriminate].
  - destruct (extract_model mref sig label); discriminate.
  - apply IH.
Qed.

(** X17: the oracle reports equivalence only on two [unsat] answers.  When
    [find_model_or_equivalence] returns no model, the solver answered
    [unsat] to both unbounded queries; when
    [find_model_or_equivalence_cvc4] returns no model, both subprocess runs
    ended with return code zero and the first line [unsat]. *)
Theorem equivalence_needs_two_unsat (solver : Solver) (cvc4 : Cvc4) (a b : Formula)
    (env : Environment.t) :
  (find_model_or_equivalence solver a b env = Ok None ->
     solver_check solver a b None = Ok unsat
     /\ solver_check solver b a None = Ok unsat)
  /\ (find_model_or_equivalence_cvc4 cvc4 a b env = Ok None ->
     exists rest1 rest2,
       run cvc4 a b = Ok (CompletedProcess 0 ("unsat" :: rest1))
       /\ run cvc4 b a = Ok (CompletedProcess 0 ("unsat" :: rest2))).
Proof.
  split.
  - unfold find_model_or_equivalence, fm.
    destruct (solver_check solver a b None) as [r1|]; [|discriminate].
    cbn [mbind Res_bind mret Res_ret snd fst].
    destruct (decide (r1 = sat)) as [->|H1].
    { intros H. exfalso. exact (minimize_never_none _ _ _ _ _ _ _ H). }
    destruct (solver_check solver b a None) as [r2|]; [|discriminate].
    cbn [mbind Res_bind mret Res_ret snd fst].
    destruct (decide (r2 = sat)) as [->|H2].
    { intros H. exfalso. exact (minimize_never_none _ _ _ _ _ _ _ H). }
    destruct (decide (r1 = unsat /\ r2 = unsat)) as [[-> ->]|]; [|discriminate].
    intros _. split; reflexivity.
  - unfold find_model_or_equivalence_cvc4.
    destruct (run cvc4 a b) as [res1|]; [|discriminate]. simpl.
    destruct (solve_with_cvc4 _ res1 _) as [[r1 om1]|] eqn:E1; [|discriminate]. simpl.
    destruct om1 as [M1|]; [discriminate|].
    destruct (run cvc4 b a) as [res2|]; [|discriminate]. simpl.
    destruct (solve_with_cvc4 _ res2 _) as [[r2 om2]|] eqn:E2; [|discriminate]. simpl.
    destruct om2 as [M2|]; [discriminate|].
    destruct (decide (r1 = unsat /\ r2 = unsat)) as [[-> ->]|]; [|discriminate].
    intros _.
    apply solve_with_cvc4_cases in E1 as [(? & _)|[(_ & _ & rest1 & ->)|(? & _)]];
      try discriminate.
    apply solve_with_cvc4_cases in E2 as [(? & _)|[(_ & _ & rest2 & ->)|(? & _)]];
      try discriminate.
    eauto.
Qed.

Lemma equivalence_needs_two_unsat_witness :
  solver_check Examples.solver_unsat (Or []) (And []) None = Ok unsat
  /\ exists rest1 rest2,
       run Examples.cvc4_unsat (Or []) (And []) = Ok (CompletedProcess 0 ("unsat" :: rest1))
       /\ run Examples.cvc4_unsat (And []) (Or []) = Ok (CompletedProcess 0 ("unsat" :: rest2)).
Proof.
  destruct (equivalence_needs_two_unsat Examples.solver_unsat Examples.cvc4_unsat
              (Or []) (And []) (Environment.init Examples.sig_S)) as [H1 H2].
  split.
  - apply H1. reflexivity.
  - apply H2. reflexivity.
Defined.

(** ** The evaluator of solver output *)

Lemma and_loop_boolean (p : AstNode -> Res string) (l : list AstNode) (s : string) :
  (fix go (l : list AstNode) : Res string :=
     match l with
     | [] => Ok "true"
     | i :: l' =>
         match p i with
         | Raise x => Raise x
         | Ok s => if String.eqb s "true" then go l' else Ok "false"
         end
     end) l = Ok s ->
  s = "true" \/ s = "false".
Proof.
  induction l as [|i l IH]; [intros [= <-]; left; reflexivity|].
  destruct (p i) as [s'|]; [|discriminate].
  destruct (String.eqb s' "true"); [exact IH|]. intros [= <-]. right. reflexivity.
Qed.

(** X18: in the model text of cvc4 an expression headed by [=], [and] or
    [not] evaluates, if it evaluates, to one of the strings [true] and
    [false]; an atom evaluates to its binding in the environment, or to
    itself when it has none. *)
Theorem eval_gives_booleans (env : gmap string string) (head : string)
    (rest : list AstNode) (s : string) :
  head = "=" \/ head = "and" \/ head = "not" ->
  _eval env (Parens (Atom head :: rest)) = Ok s ->
  s = "true" \/ s = "false".
Proof.
  intros [-> | [-> | ->]]; simpl.
  - destruct rest as [|a [|b [|? ?]]]; try discriminate.
    destruct (_eval env a) as [x|]; [|discriminate].
    destruct (_eval env b) as [y|]; [|discriminate].
    destruct (String.eqb x y); intros [= <-]; [left|right]; reflexivity.
  - destruct rest as [|i rest]; [discriminate|].
    apply (and_loop_boolean (_eval env) (i :: rest)).
  - destruct rest as [|a [|? ?]]; try discriminate.
    destruct (_eval env a) as [x|]; [|discriminate].
    destruct (String.eqb x "true"); intros [= <-]; [right|left]; reflexivity.
Qed.

Lemma eval_gives_booleans_witness :
  exists s,
    _eval {["x" := "e0"]}
          (Parens [Atom "not"; Parens [Atom "="; Atom "x"; Atom "e1"]]) = Ok s
    /\ (s = "true" \/ s = "false").
Proof.
  exists "true". split; [reflexivity|].
  apply (eval_gives_booleans {["x" := "e0"]} "not"
           [Parens [Atom "="; Atom "x"; Atom "e1"]]).
  - right. right. reflexivity.
  - reflexivity.
Defined.

(** ** The translation to z3 and the environment *)

Section ToZ3Properties.
Variable api : Z3Api.
Variable sorts_to_z3 : gmap string (SortRef api).
Variable z3_rel_func : gmap string (FuncDeclRef api).

Lemma unbinds_nil env : unbinds [] env env.
Proof.
  split; [reflexivity|]. split; [reflexivity|]. intros x.
  rewrite bool_decide_eq_false_2; [reflexivity|]. intros H. inversion H.
Qed.

Lemma unbinds_app qv1 qv2 env env1 env2 :
  unbinds qv1 env env1 -> unbinds qv2 env1 env2 -> unbinds (qv1 ++ qv2) env env2.
Proof.
  intros (Hs1 & Hk1 & Hb1) (Hs2 & Hk2 & Hb2).
  split; [congruence|]. split; [congruence|]. intros x. rewrite Hb2, Hb1.
  destruct (bool_decide_reflect (x ∈ qv2)) as [H2|H2];
    destruct (bool_decide_reflect (x ∈ qv1)) as [H1|H1];
    destruct (bool_decide_reflect (x ∈ qv1 ++ qv2)) as [H|H];
    try reflexivity; exfalso; rewrite elem_of_app in H; tauto.
Qed.

Lemma pure_step_returns {A : Type} (env env' : Environment.t) (r : Res A) (a : A) :
  pure_step env r = Returns env' a -> env' = env.
Proof. destruct r; simpl; [intros [= <- _]; reflexivity|discriminate]. Qed.

Lemma unbinds_binder v s qv env env2 env3 :
  unbinds qv (Environment.bind v s env) env2 ->
  Environment.pop env2 = Returns env3 tt ->
  unbinds (v :: qv) env env3.
Proof.
  intros (Hs & Hk & Hb). unfold Environment.pop. rewrite Hk. simpl.
  rewrite last_snoc. destruct (Environment.bound env2 !! v) eqn:Hv; [|discriminate].
  intros [= <-]. unfold unbinds. simpl. rewrite removelast_last.
  split; [exact Hs|]. split; [reflexivity|]. intros x.
  destruct (decide (x = v)) as [->|Hne].
  - rewrite lookup_delete_eq, bool_decide_eq_true_2; [reflexivity|left].
  - rewrite lookup_delete_ne by congruence. rewrite Hb. simpl.
    rewrite lookup_insert_ne by congruence.
    destruct (bool_decide_reflect (x ∈ qv)) as [H|H];
      destruct (bool_decide_reflect (x ∈ v :: qv)) as [H'|H']; try reflexivity;
      exfalso; rewrite elem_of_cons in H'; tauto.
Qed.

Lemma toZ3_unbinds (f : Formula) :
  forall env env' z,
    toZ3 api sorts_to_z3 z3_rel_func f env = Returns env' z ->
    unbinds (quantified_vars f) env env'.
Proof.
  induction f as [c IH|c IH|g IH|v s g IH|v s g IH|a b|rel args] using Formula_ind;
    intros env env' z; simpl.
  - assert (Hmap : forall env env' xs,
               step_map (toZ3 api sorts_to_z3 z3_rel_func) c env = Returns env' xs ->
               unbinds (flat_map quantified_vars c) env env').
    { clear env env' z. induction IH as [|x c Hx _ IHc]; intros env env' xs; simpl.
      - intros [= <- _]. apply unbinds_nil.
      - destruct (toZ3 _ _ _ x env) as [env1 y|] eqn:E1; [|discriminate].
        destruct (step_map _ c env1) as [env2 ys|] eqn:E2; [|discriminate].
        intros [= <- _]. eapply unbinds_app; [eapply Hx, E1|eapply IHc, E2]. }
    destruct c as [|x c]; [intros [= <- _]; apply unbinds_nil|].
    destruct (step_map _ (x :: c) env) as [env1 xs|] eqn:E; [|discriminate].
    intros H. apply pure_step_returns in H as ->. eapply Hmap, E.
  - assert (Hmap : forall env env' xs,
               step_map (toZ3 api sorts_to_z3 z3_rel_func) c env = Returns env' xs ->
               unbinds (flat_map quantified_vars c) env env').
    { clear env env' z. induction IH as [|x c Hx _ IHc]; intros env env' xs; simpl.
      - intros [= <- _]. apply unbinds_nil.
      - destruct (toZ3 _ _ _ x env) as [env1 y|] eqn:E1; [|discriminate].
        destruct (step_map _ c env1) as [env2 ys|] eqn:E2; [|discriminate].
        intros [= <- _]. eapply unbinds_app; [eapply Hx, E1|eapply IHc, E2]. }
    destruct c as [|x c]; [intros [= <- _]; apply unbinds_nil|].
    destruct (step_map _ (x :: c) env) as [env1 xs|] eqn:E; [|discriminate].
    intros H. apply pure_step_returns in H as ->. eapply Hmap, E.
  - destruct (toZ3 _ _ _ g env) as [env1 x|] eqn:E; [|discriminate].
    intros H. apply pure_step_returns in H as ->. eapply IH, E.
  - destruct (toZ3 _ _ _ g _) as [env1 x|] eqn:E; [|discriminate].
    destruct (Environment.pop env1) as [env2 []|] eqn:Epop; [|discriminate].
    destruct (sorts_to_z3 !! s); [|discriminate].
    intros H. apply pure_step_returns in H as ->.
    eapply unbinds_binder; [eapply IH, E|exact Epop].
  - destruct (toZ3 _ _ _ g _) as [env1 x|] eqn:E; [|discriminate].
    destruct (Environment.pop env1) as [env2 []|] eqn:Epop; [|discriminate].
    destruct (sorts_to_z3 !! s); [|discriminate].
    intros H. apply pure_step_returns in H as ->.
    eapply unbinds_binder; [eapply IH, E|exact Epop].
  - intros H. apply pure_step_returns in H as ->. apply unbinds_nil.
  - destruct (z3_rel_func !! rel); [|discriminate].
    intros H. apply pure_step_returns in H as ->. apply unbinds_nil.
Qed.

Lemma toZ3_shadowing_body (v s : string) (g : Formula) (env : Environment.t) :
  v ∈ quantified_vars g ->
  match toZ3 api sorts_to_z3 z3_rel_func g (Environment.bind v s env) with
  | Returns env1 _ => exists env2, Environment.pop env1 = Raises env2 (KeyError v)
  | Raises _ _ => True
  end.
Proof.
  intros Hv. destruct (toZ3 _ _ _ g _) as [env1 x|] eqn:E; [|exact I].
  apply toZ3_unbinds in E as (_ & Hk & Hb). unfold Environment.pop.
  rewrite Hk. simpl. rewrite last_snoc, Hb, bool_decide_eq_true_2 by exact Hv. eauto.
Qed.
End ToZ3Properties.

(** X19: when [toZ3] returns, the stack of the environment is as it was
    before the call and every name quantified anywhere in the formula is
    unbound, also a name that was bound before the call; the other bindings
    are untouched.  On an environment that binds none of the quantified
    names the environment is restored exactly. *)
Theorem toZ3_restores_environment (api : Z3Api)
    (sorts_to_z3 : gmap string (SortRef api)) (z3_rel_func : gmap string (FuncDeclRef api))
    (f : Formula) (env env' : Environment.t) (z : ExprRef api) :
  toZ3 api sorts_to_z3 z3_rel_func f env = Returns env' z ->
  Environment.sig env' = Environment.sig env
  /\ Environment.stack env' = Environment.stack env
  /\ (forall x, Environment.bound env' !! x
                = if bool_decide (x ∈ quantified_vars f) then None
                  else Environment.bound env !! x)
  /\ ((forall x, x ∈ quantified_vars f -> Environment.bound env !! x = None) ->
      env' = env).
Proof.
  intros H. apply toZ3_unbinds in H as (Hs & Hk & Hb).
  split; [exact Hs|]. split; [exact Hk|]. split; [exact Hb|].
  intros Hfree. destruct env as [sg bd st], env' as [sg' bd' st']. simpl in *.
  f_equal; [exact Hs| |exact Hk]. apply map_eq. intros x. rewrite Hb.
  destruct (bool_decide_reflect (x ∈ quantified_vars f)) as [Hx|Hx]; [|reflexivity].
  symmetry. apply Hfree, Hx.
Qed.

Lemma toZ3_restores_environment_witness :
  toZ3 MoreExamples.silent_z3 MoreExamples.declared_sorts MoreExamples.declared_symbols
       MoreExamples.all_P (Environment.init Examples.sig_P)
  = Returns (Environment.init Examples.sig_P) tt.
Proof.
  pose (env' := state_of (toZ3 MoreExamples.silent_z3 MoreExamples.declared_sorts
                            MoreExamples.declared_symbols MoreExamples.all_P
                            (Environment.init Examples.sig_P))).
  assert (H : toZ3 MoreExamples.silent_z3 MoreExamples.declared_sorts
                MoreExamples.declared_symbols MoreExamples.all_P
                (Environment.init Examples.sig_P) = Returns env' tt)
    by (vm_compute; reflexivity).
  destruct (toZ3_restores_environment _ _ _ _ _ _ _ H) as (_ & _ & _ & Hsame).
  rewrite H, Hsame; [reflexivity|].
  intros x _. apply lookup_empty.
Defined.

(** X20: a formula in which a quantifier binds the variable of an
    enclosing quantifier again is never translated: the inner quantifier
    unbinds the name, and the [pop] of the outer one then raises a KeyError
    on it, unless the body raised before. *)
Theorem toZ3_raises_on_rebinding (api : Z3Api)
    (sorts_to_z3 : gmap string (SortRef api)) (z3_rel_func : gmap string (FuncDeclRef api))
    (v s : string) (g : Formula) (env : Environment.t) :
  v ∈ quantified_vars g ->
  (exists env' e, toZ3 api sorts_to_z3 z3_rel_func (Forall v s g) env = Raises env' e)
  /\ (exists env' e, toZ3 api sorts_to_z3 z3_rel_func (Exists v s g) env = Raises env' e)
  /\ (forall env1 sub_f,
        toZ3 api sorts_to_z3 z3_rel_func g (Environment.bind v s env) = Returns env1 sub_f ->
        exists env2,
          toZ3 api sorts_to_z3 z3_rel_func (Forall v s g) env = Raises env2 (KeyError v)
          /\ toZ3 api sorts_to_z3 z3_rel_func (Exists v s g) env = Raises env2 (KeyError v)).
Proof.
  intros Hv.
  pose proof (toZ3_shadowing_body api sorts_to_z3 z3_rel_func v s g env Hv) as Hbody.
  simpl. destruct (toZ3 _ _ _ g _) as [env1 x|env1 e].
  - destruct Hbody as [env2 Hpop]. rewrite Hpop.
    split; [eauto|]. split; [eauto|]. intros ? ? [= <- <-]. eauto.
  - split; [eauto|]. split; [eauto|]. discriminate.
Qed.

Lemma toZ3_raises_on_rebinding_witness :
  exists env',
    toZ3 MoreExamples.silent_z3 MoreExamples.declared_sorts MoreExamples.declared_symbols
         MoreExamples.shadowed_P (Environment.init Examples.sig_P)
    = Raises env' (KeyError "x").
Proof.
  destruct (toZ3_raises_on_rebinding MoreExamples.silent_z3 MoreExamples.declared_sorts
              MoreExamples.declared_symbols "x" "S"
              (Exists "x" "S" (Relation "P" [Var "x"]))
              (Environment.init Examples.sig_P)) as (_ & _ & H).
  - left.
  - edestruct H as (env2 & H2 & _); [vm_compute; reflexivity|].
    exists env2. exact H2.
Defined.

(** ** Extraction of a model from the embedded solver *)

Lemma for_each_returns_each {S A B : Type} (body : A -> S -> Step S B) (l : list A)
    (s s' : S) (u : unit) :
  for_each body l s = Returns s' u ->
  forall x, x ∈ l -> exists s0 s1 b, body x s0 = Returns s1 b.
Proof.
  revert s. induction l as [|y l IH]; intros s H x Hx; [inversion Hx|].
  simpl in H. destruct (body y s) as [s1 b|] eqn:E; [|discriminate].
  apply elem_of_cons in Hx as [->|Hx]; [eauto|]. eapply IH; eassumption.
Qed.

Lemma for_each_returns_preserves {S A B : Type} (P : S -> Prop)
    (body : A -> S -> Step S B) (l : list A) :
  (forall x s s' b, P s -> body x s = Returns s' b -> P s') ->
  forall s s' u, P s -> for_each body l s = Returns s' u -> P s'.
Proof.
  intros Hbody. induction l as [|y l IH]; intros s s' u Hs H; simpl in H.
  - injection H as <- _. exact Hs.
  - destruct (body y s) as [s1 b|] eqn:E; [|discriminate].
    eapply IH; [|exact H]. eapply Hbody; eassumption.
Qed.

Lemma for_each_establishes {S A B : Type} (Q : A -> S -> Prop)
    (body : A -> S -> Step S B) (l : list A) :
  (forall x s s' b, body x s = Returns s' b -> Q x s') ->
  (forall x y s s' b, Q x s -> body y s = Returns s' b -> Q x s') ->
  forall s s' u, for_each body l s = Returns s' u -> forall x, x ∈ l -> Q x s'.
Proof.
  intros Hset Hkeep. induction l as [|y l IH]; intros s s' u H x Hx; [inversion Hx|].
  simpl in H. destruct (body y s) as [s1 b|] eqn:E; [|discriminate].
  apply elem_of_cons in Hx as [->|Hx]; [|eapply IH; eassumption].
  apply Hset in E.
  eapply (for_each_returns_preserves (Q y) body l); [|exact E|exact H].
  intros z t t' b' Ht Hb. eapply Hkeep; eassumption.
Qed.

Lemma finished_returns {S A : Type} (r : Step S A) (s : S) :
  finished r = Ok s -> exists a, r = Returns s a.
Proof. destruct r; simpl; [intros [= <-]; eauto|discriminate]. Qed.

Lemma sorted_items_elem_of {V : Type} (d : gmap string V) (k : string) (v : V) :
  d !! k = Some v -> (k, v) ∈ sorted_items d.
Proof.
  intros H. unfold sorted_items. apply list_elem_of_omap. exists k. split.
  - apply sorted_elem_of, elem_of_elements, elem_of_dom. eauto.
  - rewrite H. reflexivity.
Qed.

Lemma add_elem_sig name sort m m' v :
  Model.add_elem name sort m = Returns m' v -> Model.sig m' = Model.sig m.
Proof.
  unfold Model.add_elem. destruct (Model.elems m !! name); [intros [= <- _]; reflexivity|].
  destruct (Signature.sort_indices (Model.sig m) !! sort) as [i|]; [|discriminate].
  destruct (Model.elems_of_sort_index m !! i); [|discriminate].
  intros [= <- _]. reflexivity.
Qed.

Lemma extraction_invariant_add_relation sig rel args M M' v :
  extraction_invariant sig M -> Model.add_relation rel args M = Returns M' v ->
  extraction_invariant sig M' /\ Model.constants M' = Model.constants M.
Proof.
  intros [Hwf Hsig] H. split; [split; [eapply add_relation_wf; eassumption|]|];
    unfold Model.add_relation in H;
    destruct (Model.relations M !! rel); try discriminate;
    destruct (Model.elems_tuple M args); try discriminate;
    injection H as <- _; [exact Hsig|reflexivity].
Qed.

Lemma extraction_invariant_add_function sig func args result M M' v :
  extraction_invariant sig M -> Model.add_function func args result M = Returns M' v ->
  extraction_invariant sig M' /\ Model.constants M' = Model.constants M.
Proof.
  intros [Hwf Hsig] H. split; [split; [eapply add_function_wf; eassumption|]|];
    unfold Model.add_function in H;
    destruct (Model.elems M !! result); try discriminate;
    destruct (Model.functions M !! func); try discriminate;
    destruct (Model.elems_tuple M args); try discriminate;
    injection H as <- _; [exact Hsig|reflexivity].
Qed.

Lemma add_constant_sets name elem M M' v :
  Model.add_constant name elem M = Returns M' v ->
  is_Some (Model.constants M' !! name)
  /\ Model.sig M' = Model.sig M
  /\ forall c, is_Some (Model.constants M !! c) -> is_Some (Model.constants M' !! c).
Proof.
  unfold Model.add_constant. destruct (Model.constants M !! name) eqn:E.
  - intros [= <- _]. rewrite E. eauto.
  - destruct (Model.elems M !! elem); [|discriminate]. intros [= <- _]. simpl.
    rewrite lookup_insert_eq. split; [eauto|]. split; [reflexivity|].
    intros c Hc. destruct (decide (name = c)) as [->|Hne].
    + rewrite lookup_insert_eq. eauto.
    + rewrite lookup_insert_ne by exact Hne. exact Hc.
Qed.

(** X21: a Model that [extract_model] returns was read from a solver
    model in which every sort of the signature has an element; it has the
    given signature and the shape of element tables that the add operations
    keep, and it interprets every constant of the signature. *)
Theorem extract_model_result (mref : ModelRef) (sig : Signature.t) (label : string)
    (M : Model.t) :
  extract_model mref sig label = Ok M ->
  (forall sort, sort ∈ Signature.sorts sig -> get_universe mref sort <> [])
  /\ Model.sig M = sig
  /\ model_wf M
  /\ (forall c s, Signature.constants sig !! c = Some s ->
                  is_Some (Model.constants M !! c)).
Proof.
  unfold extract_model.
  destruct (finished (for_each _ (sorted (elements (Signature.sorts sig))) _))
    as [M1|] eqn:E1; [|discriminate]. simpl.
  destruct (finished (for_each _ (sorted_items (Signature.constants sig)) M1))
    as [M2|] eqn:E2; [|discriminate]. simpl.
  destruct (finished (for_each _ (sorted_items (Signature.relations sig)) M2))
    as [M3|] eqn:E3; [|discriminate]. simpl.
  intros E4.
  apply finished_returns in E1 as [[] E1], E2 as [[] E2], E3 as [[] E3], E4 as [[] E4].
  assert (H1 : extraction_invariant sig M1).
  { eapply (for_each_returns_preserves (extraction_invariant sig)); [| |exact E1].
    - intros sort s s' b Hs. cbv beta.
      destruct (Nat.eqb (length (get_universe mref sort)) 0); [discriminate|].
      destruct b. apply (for_each_returns_preserves (extraction_invariant sig)); [|exact Hs].
      intros e t t' b [Hwf Hsig] Hb. split; [eapply add_elem_wf; eassumption|].
      rewrite (add_elem_sig _ _ _ _ _ Hb). exact Hsig.
    - split; [apply model_wf_init|reflexivity]. }
  assert (H2 : extraction_invariant sig M2).
  { eapply (for_each_returns_preserves (extraction_invariant sig)); [|exact H1|exact E2].
    intros cs s s' b [Hwf Hsig] Hb. split; [eapply add_constant_wf; eassumption|].
    apply add_constant_sets in Hb as (_ & -> & _). exact Hsig. }
  assert (Hrel : forall P : Model.t -> Prop,
             (forall M M', Model.constants M' = Model.constants M -> P M -> P M') ->
             (extraction_invariant sig M2 /\ P M2) -> extraction_invariant sig M /\ P M).
  { intros P HP H.
    assert (H3 : extraction_invariant sig M3 /\ P M3).
    { eapply (for_each_returns_preserves (fun M => extraction_invariant sig M /\ P M));
        [|exact H|exact E3].
      intros rs s s' b Hs. destruct b.
      apply (for_each_returns_preserves (fun M => extraction_invariant sig M /\ P M));
        [|exact Hs].
      intros t u u' b [Hu HPu]. destruct (eval_rel mref rs.1 t).
      - intros Hb. destruct (extraction_invariant_add_relation _ _ _ _ _ _ Hu Hb) as [Hi Hc].
        split; [exact Hi|]. eapply HP; eassumption.
      - intros [= <- _]. split; assumption. }
    eapply (for_each_returns_preserves (fun M => extraction_invariant sig M /\ P M));
      [|exact H3|exact E4].
    intros fs s s' b Hs. destruct b.
    apply (for_each_returns_preserves (fun M => extraction_invariant sig M /\ P M));
      [|exact Hs].
    intros t u u' b [Hu HPu] Hb.
    destruct (extraction_invariant_add_function _ _ _ _ _ _ _ Hu Hb) as [Hi Hc].
    split; [exact Hi|]. eapply HP; eassumption. }
  split; [|split; [|split]].
  - intros sort Hsort Hempty.
    destruct (for_each_returns_each _ _ _ _ _ E1 sort) as (s0 & s1 & b & Hbody).
    { apply sorted_elem_of, elem_of_elements, Hsort. }
    simpl in Hbody. rewrite Hempty in Hbody. discriminate.
  - apply (Hrel (fun _ => True)); auto.
  - apply (Hrel (fun _ => True)); auto.
  - intros c s Hc.
    apply (Hrel (fun M => is_Some (Model.constants M !! c))).
    { intros N N' -> HN. exact HN. }
    split; [exact H2|].
    eapply (for_each_establishes
              (fun cs M => is_Some (Model.constants M !! cs.1)) _ _ _ _ _ _ tt E2 (c, s)).
    Unshelve.
    + apply sorted_items_elem_of, Hc.
    + intros cs t t' b Hb. apply add_constant_sets in Hb as (H & _). exact H.
    + intros cs cs' t t' b Ht Hb. apply add_constant_sets in Hb as (_ & _ & H). auto.
Qed.

Lemma extract_model_result_witness :
  exists M,
    extract_model Examples.one_element Examples.sig_S "-" = Ok M
    /\ model_wf M
    /\ get_universe Examples.one_element "S" <> [].
Proof.
  destruct (extract_model Examples.one_element Examples.sig_S "-") as [M|] eqn:E;
    [|vm_compute in E; discriminate].
  exists M. split; [reflexivity|].
  destruct (extract_model_result _ _ _ _ E) as (Hne & _ & Hwf & _).
  split; [exact Hwf|]. apply Hne. simpl. set_solver.
Defined.

(** ** More on the refinement loop *)

Section LoopProperties.
Context {Sep : Type} `{!Separator.ops Sep}.
Variable world : World.
Variable sig : Signature.t.
Variable formula : Formula.
Variable args : Args.

(** Every way an iteration can end, read off its code. *)
Lemma iteration_outcomes (i : nat) (st : LoopState Sep) :
  match iteration world sig formula args i st with
  | Continue st' =>
      exists r ident c,
        oracle_answer world sig formula args i st = Ok (Some r)
        /\ result st' = {| success := success (result st); current := c;
                           models := models (result st) ++ [r];
                           reason := reason (result st) |}
        /\ p_constraints st' = (if String.prefix "+" (Model.label r)
                                then p_constraints st ++ [ident] else p_constraints st)
        /\ n_constraints st' = (if String.prefix "+" (Model.label r)
                                then n_constraints st else n_constraints st ++ [ident])
  | Break st' =>
      exists r,
        oracle_answer world sig formula args i st = Ok (Some r)
        /\ result st' = {| success := success (result st);
                           current := current (result st);
                           models := models (result st) ++ [r];
                           reason := couldnt_separate |}
  | Return res =>
      oracle_answer world sig formula args i st = Ok None
      /\ res = {| success := true; current := current (result st);
                  models := models (result st); reason := reason (result st) |}
  | Raised st' e =>
      success (result st') = success (result st)
      /\ current (result st') = current (result st)
      /\ reason (result st') = reason (result st)
      /\ (models (result st') = models (result st)
          \/ exists r, models (result st') = models (result st) ++ [r])
  end.
Proof.
  unfold iteration, oracle_answer.
  destruct (enter_counterexample _); [|auto 6].
  destruct (if negb (no_cvc4 args) then _ else _) as [[r|]|]; [| |auto 6];
    (destruct (check_time _); [|auto 6]); [|auto].
  destruct (enter_separation _); [|auto 6].
  destruct (Separator.add_model r (sep st)) as [sep1 ident|]; [|simpl; auto 6].
  destruct (Separator.separate _ _ _ _ _ sep1) as [sep2 [c|]|]; simpl; eauto 10.
Qed.

Lemma reaches_invariant axioms i (st : LoopState Sep) :
  reaches world sig formula args axioms i st ->
  success (result st) = false
  /\ reason (result st) = EmptyString
  /\ length (models (result st)) = i
  /\ length (p_constraints st)
     = length (List.filter (fun m => String.prefix "+" (Model.label m))
                           (models (result st)))
  /\ length (n_constraints st)
     = length (List.filter (fun m => negb (String.prefix "+" (Model.label m)))
                           (models (result st))).
Proof.
  induction 1 as [|i st st' _ IH Hstep]; [repeat split; reflexivity|].
  destruct IH as (Hs & Hr & Hm & Hp & Hn).
  pose proof (iteration_outcomes i st) as Hout. rewrite Hstep in Hout.
  destruct Hout as (r & ident & c & _ & -> & -> & ->). simpl.
  rewrite !List.filter_app, !length_app. simpl.
  split; [exact Hs|]. split; [exact Hr|]. split; [lia|].
  destruct (String.prefix "+" (Model.label r)); simpl;
    rewrite ?length_app; simpl; lia.
Qed.

Lemma learn_loop_success axioms (fuel : nat) :
  forall i (st : LoopState Sep) res,
    reaches world sig formula args axioms i st ->
    learn_loop world sig formula args fuel i st = Some (Ok res) ->
    success res = true ->
    exists j st',
      reaches world sig formula args axioms j st'
      /\ oracle_answer world sig formula args j st' = Ok None
      /\ res = {| success := true; current := current (result st');
                  models := models (result st'); reason := EmptyString |}.
Proof.
  induction fuel as [|fuel IH]; intros i st res Hreach; simpl; [discriminate|].
  pose proof (iteration_outcomes i st) as Hout.
  pose proof (reaches_invariant _ _ _ Hreach) as (Hs & Hr & _).
  destruct (iteration world sig formula args i st) as [st'|st'|r|st' e] eqn:E.
  - apply IH. econstructor; eassumption.
  - destruct Hout as (r & _ & Hres). intros [= <-] Htrue.
    rewrite Hres in Htrue. simpl in Htrue. congruence.
  - destruct Hout as [Hnone ->]. intros [= <-] _.
    exists i, st. rewrite Hr. auto.
  - destruct Hout as (Hs' & _). destruct e; try discriminate;
      intros [= <-] Htrue; simpl in Htrue; congruence.
Qed.

Lemma learn_loop_raised axioms i (st st' : LoopState Sep) e fuel :
  reaches world sig formula args axioms i st ->
  iteration world sig formula args i st = Raised st' e ->
  learn_loop world sig formula args (S fuel) i st
  = match e with
    | TimeoutException =>
        Some (Ok {| success := false; current := current (result st);
                    models := models (result st'); reason := "timeout" |})
    | RuntimeError msg =>
        Some (Ok {| success := false; current := current (result st);
                    models := models (result st'); reason := msg |})
    | _ => Some (Raise e)
    end.
Proof.
  intros Hreach E. simpl. rewrite E.
  pose proof (iteration_outcomes i st) as Hout. rewrite E in Hout.
  destruct Hout as (Hs & Hc & _).
  pose proof (reaches_invariant _ _ _ Hreach) as (Hf & _).
  destruct e; try reflexivity; rewrite Hs, Hc, Hf; reflexivity.
Qed.
End LoopProperties.

Lemma filter_partition_length {A : Type} (p : A -> bool) (l : list A) :
  length (List.filter p l) + length (List.filter (fun x => negb (p x)) l) = length l.
Proof.
  induction l as [|x l IH]; simpl; [reflexivity|].
  destruct (p x); simpl; lia.
Qed.

(** X22: the loop of [learn] collects one counterexample per completed
    iteration and files its identifier under exactly one of the two
    constraint lists: when iteration [i] starts there are [i] models, as
    many positive constraints as models whose label starts with [+], as
    many negative constraints as other models, the success flag is unset and
    no reason is set. *)
Theorem learn_files_each_counterexample {Sep : Type} `{!Separator.ops Sep}
    (world : World) (sig : Signature.t) (formula : Formula) (args : Args)
    (axioms : list Formula) (i : nat) (st : LoopState Sep) :
  reaches world sig formula args axioms i st ->
  success (result st) = false
  /\ reason (result st) = EmptyString
  /\ length (models (result st)) = i
  /\ length (p_constraints st)
     = length (List.filter (fun m => String.prefix "+" (Model.label m))
                           (models (result st)))
  /\ length (n_constraints st)
     = length (List.filter (fun m => negb (String.prefix "+" (Model.label m)))
                           (models (result st)))
  /\ length (p_constraints st) + length (n_constraints st) = i.
Proof.
  intros Hreach.
  destruct (reaches_invariant _ _ _ _ _ _ _ Hreach) as (Hs & Hr & Hm & Hp & Hn).
  repeat (split; [assumption|]). rewrite Hp, Hn, <- Hm.
  apply (filter_partition_length (fun m => String.prefix "+" (Model.label m))).
Qed.

Lemma learn_files_each_counterexample_witness :
  exists st',
    iteration (H := MoreExamples.always_true) Examples.world_weak Examples.sig_S (And [])
      Examples.args_cvc4 0
      (learn_start (H := MoreExamples.always_true) Examples.sig_S (And [])
         Examples.args_cvc4 [])
    = Continue st'
    /\ length (models (result st')) = 1
    /\ length (p_constraints st') + length (n_constraints st') = 1.
Proof.
  destruct (iteration (H := MoreExamples.always_true) Examples.world_weak Examples.sig_S
              (And []) Examples.args_cvc4 0
              (learn_start (H := MoreExamples.always_true) Examples.sig_S (And [])
                 Examples.args_cvc4 [])) as [st'|st'|r|st' e] eqn:E;
    try (vm_compute in E; discriminate E).
  exists st'. split; [reflexivity|].
  destruct (learn_files_each_counterexample (H := MoreExamples.always_true)
              Examples.world_weak Examples.sig_S (And []) Examples.args_cvc4 [] 1 st')
    as (_ & _ & Hm & _ & _ & Hc).
  - eapply reaches_step; [constructor|exact E].
  - split; assumption.
Defined.

(** X23: [learn] reports success only on the word of the oracle: a result
    with the success flag set is the hypothesis of an iteration in which the
    oracle returned no model, with the models collected until then and an
    empty reason. *)
Theorem learn_success_is_equivalence {Sep : Type} `{!Separator.ops Sep}
    (world : World) (sig : Signature.t) (formula : Formula) (args : Args)
    (axioms : list Formula) (fuel : nat) (res : LearningResult) :
  learn world sig formula args fuel axioms = Some (Ok res) ->
  success res = true ->
  exists j st,
    reaches world sig formula args axioms j st
    /\ oracle_answer world sig formula args j st = Ok None
    /\ current res = current (result st)
    /\ models res = models (result st)
    /\ length (models res) = j
    /\ reason res = EmptyString.
Proof.
  unfold learn. destruct (setup world); [|discriminate]. intros Hrun Htrue.
  destruct (learn_loop_success world sig formula args axioms fuel 0 _ res
              (reaches_start world sig formula args axioms) Hrun Htrue) as (j & st & Hreach & Hnone & ->).
  exists j, st. simpl.
  destruct (reaches_invariant _ _ _ _ _ _ _ Hreach) as (_ & _ & Hm & _). auto 10.
Qed.

Lemma learn_success_is_equivalence_witness :
  exists j st,
    reaches (Sep := nat) MoreExamples.world_unsat Examples.sig_S (Or []) Examples.args_cvc4 [] j st
    /\ oracle_answer MoreExamples.world_unsat Examples.sig_S (Or []) Examples.args_cvc4 j st
       = Ok None.
Proof.
  destruct (learn_success_is_equivalence (Sep := nat) MoreExamples.world_unsat
              Examples.sig_S (Or []) Examples.args_cvc4 [] 1
              {| success := true; current := Or []; models := []; reason := EmptyString |})
    as (j & st & H1 & H2 & _); [reflexivity|reflexivity|].
  exists j, st. split; assumption.
Defined.

Lemma learn_after_raise {Sep : Type} `{!Separator.ops Sep}
    (world : World) (sig : Signature.t) (formula : Formula) (args : Args)
    (axioms : list Formula) (i : nat) (st st' : LoopState Sep) (e : PyExn) (fuel : nat) :
  setup world = Ok tt ->
  reaches world sig formula args axioms i st ->
  iteration world sig formula args i st = Raised st' e ->
  i < fuel ->
  learn world sig formula args fuel axioms
  = match e with
    | TimeoutException =>
        Some (Ok {| success := false; current := current (result st);
                    models := models (result st'); reason := "timeout" |})
    | RuntimeError msg =>
        Some (Ok {| success := false; current := current (result st);
                    models := models (result st'); reason := msg |})
    | _ => Some (Raise e)
    end.
Proof.
  intros Hsetup Hreach E Hfuel. unfold learn. rewrite Hsetup.
  replace fuel with (i + S (fuel - S i)) by lia.
  rewrite (learn_loop_reaches _ _ _ _ _ _ _ Hreach).
  apply (learn_loop_raised world sig formula args axioms); assumption.
Qed.

(** X24: how [learn] ends when a statement of the loop body raises: on
    [TimeoutException] with the reason [timeout], on a [RuntimeError] with
    its message as the reason, in both cases with the success flag unset,
    the hypothesis of that iteration and the models appended so far; any
    other exception leaves [learn]. *)
Theorem learn_ends_on_exception {Sep : Type} `{!Separator.ops Sep}
    (world : World) (sig : Signature.t) (formula : Formula) (args : Args)
    (axioms : list Formula) (i : nat) (st st' : LoopState Sep) (e : PyExn) (fuel : nat) :
  setup world = Ok tt ->
  reaches world sig formula args axioms i st ->
  iteration world sig formula args i st = Raised st' e ->
  i < fuel ->
  learn world sig formula args fuel axioms
  = match e with
    | TimeoutException =>
        Some (Ok {| success := false; current := current (result st);
                    models := models (result st'); reason := "timeout" |})
    | RuntimeError msg =>
        Some (Ok {| success := false; current := current (result st);
                    models := models (result st'); reason := msg |})
    | _ => Some (Raise e)
    end.
Proof. apply learn_after_raise. Qed.

Lemma learn_ends_on_exception_witness :
  learn (Sep := nat) MoreExamples.world_late Examples.sig_S (And []) Examples.args_cvc4 1 []
  = Some (Ok {| success := false; current := Or []; models := []; reason := "timeout" |}).
Proof.
  apply (learn_ends_on_exception (Sep := nat) MoreExamples.world_late Examples.sig_S (And [])
           Examples.args_cvc4 [] 0
           (learn_start (Sep := nat) Examples.sig_S (And []) Examples.args_cvc4 [])
           (learn_start (Sep := nat) Examples.sig_S (And []) Examples.args_cvc4 [])
           TimeoutException 1);
    [reflexivity|constructor|reflexivity|lia].
Defined.

(** X25: a timeout of the external solver is not reported as a timeout.
    When the first subprocess run of an iteration times out and the second
    gives no model, [find_model_or_equivalence_cvc4] raises its RuntimeError
    and [learn] ends with that message as the reason. *)
Theorem learn_on_subprocess_timeout {Sep : Type} `{!Separator.ops Sep}
    (world : World) (sig : Signature.t) (formula : Formula) (args : Args)
    (axioms : list Formula) (i : nat) (st : LoopState Sep) (res2 : SubprocessResult)
    (r2 : CheckSatResult) (fuel : nat) :
  setup world = Ok tt ->
  no_cvc4 args = false ->
  reaches world sig formula args axioms i st ->
  enter_counterexample (clock world i) = Ok tt ->
  run (cvc4 world i) (current (result st)) formula = Ok TimeoutExpired ->
  run (cvc4 world i) formula (current (result st)) = Ok res2 ->
  solve_with_cvc4 (_parse_model (cvc4 world i)) res2 sig = Ok (r2, None) ->
  i < fuel ->
  learn world sig formula args fuel axioms
  = Some (Ok {| success := false; current := current (result st);
                models := models (result st);
                reason := "CVC4 did not produce equivalence or model" |}).
Proof.
  intros Hsetup Hcvc4 Hreach Henter Hrun1 Hrun2 Hsolve Hfuel.
  assert (E : iteration world sig formula args i st
              = Raised st (RuntimeError "CVC4 did not produce equivalence or model")).
  { unfold iteration, find_model_or_equivalence_cvc4.
    rewrite Henter, Hcvc4. simpl. rewrite Hrun1. simpl. rewrite Hrun2. simpl.
    rewrite Hsolve. reflexivity. }
  rewrite (learn_after_raise world sig formula args axioms i st st _ fuel
             Hsetup Hreach E Hfuel).
  reflexivity.
Qed.

Lemma learn_on_subprocess_timeout_witness :
  learn (Sep := nat) MoreExamples.world_slow Examples.sig_S (And []) Examples.args_cvc4 1 []
  = Some (Ok {| success := false; current := Or []; models := [];
                reason := "CVC4 did not produce equivalence or model" |}).
Proof.
  apply (learn_on_subprocess_timeout (Sep := nat) MoreExamples.world_slow Examples.sig_S
           (And []) Examples.args_cvc4 [] 0
           (learn_start (Sep := nat) Examples.sig_S (And []) Examples.args_cvc4 [])
           TimeoutExpired unknown 1);
    [reflexivity|reflexivity|constructor|reflexivity|reflexivity|reflexivity
    |reflexivity|lia].
Defined.

Lemma list_comprehension_ok {A B : Type} (p : A -> Res B) (l : list A) (bs : list B) :
  list_comprehension p l = Ok bs -> forall x, x ∈ l -> exists b, p x = Ok b.
Proof.
  revert bs. induction l as [|y l IH]; intros bs Hl x Hx; [inversion Hx|].
  simpl in Hl. destruct (p y) as [b|] eqn:E; [|discriminate].
  destruct (list_comprehension p l) as [bs'|]; [|discriminate].
  apply elem_of_cons in Hx as [->|Hx]; [eauto|]. eapply IH; [reflexivity|exact Hx].
Qed.

(** X26: what batch [separate] can return.  A result with the success flag
    set carries a candidate that the evaluator checked on every model of the
    file without an exception, and no reason; a result with the flag unset
    carries the empty disjunction and one of the reasons [timeout] and
    "couldn't separate models under given restrictions".  Either way the
    models are those of the file. *)
Theorem separate_result_shape {Sep : Type} `{!Separator.ops Sep}
    (world : World) (args : Args) (f : FOLFile) (res : LearningResult) :
  separate world args f = Ok res ->
  models res = file_models f
  /\ (if success res
      then reason res = EmptyString
           /\ forall m, m ∈ file_models f -> exists b, check (current res) m ∅ = Ok b
      else current res = Or []
           /\ (reason res = "timeout" \/ reason res = couldnt_separate)).
Proof.
  unfold separate.
  destruct (register_models _ _) as [[sep1 mapping] []|]; [|discriminate].
  destruct (enter_separation _) as [[]|[]]; try discriminate.
  2: { intros [= <-]. simpl. auto. }
  destruct (Separator.separate _ _ _ _ _ sep1) as [sep2 [c|]|sep2 []]; try discriminate.
  - destruct (list_comprehension _ (file_models f)) as [bs|] eqn:E; [|discriminate].
    simpl. intros [= <-]. simpl. split; [reflexivity|]. split; [reflexivity|].
    eapply list_comprehension_ok. exact E.
  - intros [= <-]. simpl. auto.
  - intros [= <-]. simpl. auto.
Qed.

Lemma separate_result_shape_witness :
  exists m b,
    Examples.one_element_model = Ok m
    /\ check (And []) m ∅ = Ok b.
Proof.
  pose (m := state_of (Model.add_elem "e" "S" (Model.init Examples.sig_S))).
  exists m. 
  destruct (separate_result_shape (H := MoreExamples.always_true) Examples.world_weak
              Examples.args_cvc4 (Examples.file_one_model m)
              {| success := true; current := And []; models := [m];
                 reason := EmptyString |} eq_refl) as (_ & _ & Hcheck).
  destruct (Hcheck m) as [b Hb]; [left|].
  exists b. split; [reflexivity|exact Hb].
Defined.
